(** * EventManager: a listener-lifecycle registry

    Shallow embedding of [src/src/event-manager.ts] (class [EventManager],
    identical to [EventManagerV2] of the bundled sources) and the
    properties of its register / deregister / dispose state machine.

    Objects that the TypeScript code compares by identity (event targets,
    listener callbacks, symbols) are natural numbers.  The private field
    [#events] is a JavaScript [Map], whose iteration order is insertion
    order, so it is an association list; the per-target
    [Map<symbol, EarlyEventDispose>] is never iterated (only [get], [set],
    [delete] and [size] are used), so it is a [gmap].  Everything the
    class does to the outside world (calls on the target, console output)
    is appended to a trace.

    A target either returns from [addEventListener] and
    [removeEventListener] or throws; it does not call back into the
    manager.  Console calls, and the string conversions in their
    messages, return normally. *)

From stdpp Require Import gmap strings list.

Set Default Proof Using "Type".

(** ** Values *)

(** One (target, event name, callback) triple: the variables captured by
    both arrow functions created in [register]. *)
Abbreviation EventName := string.

Record Binding := mkBinding {
  bd_target : nat;
  bd_eventName : EventName;
  bd_callback : nat
}.

(** [options?: boolean | AddEventListenerOptions]. *)
Inductive Options :=
| OptUndefined
| OptBoolean (useCapture : bool)
| OptObject (capture once passive : bool).

(** What a [throw] can carry. *)
Inductive Thrown :=
| JsError (message : string)
| JsReferenceError
| JsSuppressedError (error suppressed : Thrown)
| JsValue (v : nat).

(** [error instanceof Error] *)
Definition instanceof_Error (x : Thrown) : bool :=
  match x with
  | JsValue _ => false
  | _ => true
  end.

(** The console messages of the class, one constructor per template. *)
Inductive LogMessage :=
| MsgDisposingListener (b : Binding)
| MsgDisposingEarly (b : Binding)
| MsgRemoveFailed (target : nat) (error : Thrown)
| MsgRemoveFailedUnknown (target : nat)
| MsgNoEvent (target : nat)
| MsgNoListener (target symbol : nat)
| MsgNoEarlyListener (target symbol : nat)
| MsgDisposed.

Inductive Effect :=
| AddEventListener (b : Binding) (options : Options)
| RemoveEventListener (b : Binding)
| ConsoleDebug (m : LogMessage)
| ConsoleWarn (m : LogMessage).

(** The arrow function handed to [stack.defer] (lines 97-100). *)
Inductive DeferCallback := DeferDispose (b : Binding).

(** The arrow function stored in the early-dispose map (lines 103-119). *)
Inductive EarlyEventDispose := EarlyDispose (b : Binding) (symbol : nat).

#[global] Instance Binding_eq_dec : EqDecision Binding.
Proof. solve_decision. Defined.
#[global] Instance Options_eq_dec : EqDecision Options.
Proof. solve_decision. Defined.
#[global] Instance Thrown_eq_dec : EqDecision Thrown.
Proof. solve_decision. Defined.
#[global] Instance LogMessage_eq_dec : EqDecision LogMessage.
Proof. solve_decision. Defined.
#[global] Instance Effect_eq_dec : EqDecision Effect.
Proof. solve_decision. Defined.
#[global] Instance DeferCallback_eq_dec : EqDecision DeferCallback.
Proof. solve_decision. Defined.
#[global] Instance EarlyEventDispose_eq_dec : EqDecision EarlyEventDispose.
Proof. solve_decision. Defined.

(** ** DisposableStack *)

Inductive Result (A : Type) :=
| Ok (a : A)
| Throw (x : Thrown).
Arguments Ok {A} a.
Arguments Throw {A} x.

Module DisposableStack.

(** [ds_disposed] is the stack's [[DisposableState]]; [ds_resources]
    holds the deferred callbacks, oldest first. *)
Record t := mk {
  ds_disposed : bool;
  ds_resources : list DeferCallback
}.

(** [new DisposableStack()] *)
Definition new : t := mk false [].

(** The state every stack is left in by [move] and by disposal. *)
Definition spent : t := mk true [].

(** [s.defer(f)]: returns the stack as mutated. *)
Definition defer (f : DeferCallback) (s : t) : Result t :=
  if ds_disposed s then Throw JsReferenceError
  else Ok (mk false (ds_resources s ++ [f])).

(** [s.move()]: the new stack, and [s] as mutated. *)
Definition move (s : t) : Result (t * t) :=
  if ds_disposed s then Throw JsReferenceError
  else Ok (mk false (ds_resources s), spent).

#[global] Instance eq_dec : EqDecision t.
Proof. solve_decision. Defined.

End DisposableStack.

Abbreviation Entry := (DisposableStack.t * gmap nat EarlyEventDispose)%type.

(** ** JavaScript [Map] keyed by object identity *)

Module JsMap.
Section JsMap.
Context {V : Type}.

Fixpoint get (k : nat) (m : list (nat * V)) : option V :=
  match m with
  | [] => None
  | (k', v) :: m' => if decide (k' = k) then Some v else get k m'
  end.

(** [set] keeps the position of an existing key and appends a new one. *)
Fixpoint set (k : nat) (v : V) (m : list (nat * V)) : list (nat * V) :=
  match m with
  | [] => [(k, v)]
  | (k', v') :: m' =>
      if decide (k' = k) then (k, v) :: m' else (k', v') :: set k v m'
  end.

Fixpoint delete (k : nat) (m : list (nat * V)) : list (nat * V) :=
  match m with
  | [] => []
  | (k', v') :: m' =>
      if decide (k' = k) then delete k m' else (k', v') :: delete k m'
  end.

Definition keys (m : list (nat * V)) : list nat := m.*1.

End JsMap.
End JsMap.

(** ** Machine state *)

(** [disposed] and [events] are the two private fields of the class;
    [symbols] counts the calls of [Symbol()] made so far, so that the
    next symbol is fresh; [trace] is the history of effects, oldest
    first. *)
Record State := mkState {
  disposed : bool;
  events : list (nat * Entry);
  symbols : nat;
  trace : list Effect
}.

(** [new EventManager()] *)
Definition new_manager : State := mkState false [] 0 [].

Definition with_disposed (d : bool) (st : State) : State :=
  mkState d (events st) (symbols st) (trace st).
Definition with_events (ev : list (nat * Entry)) (st : State) : State :=
  mkState (disposed st) ev (symbols st) (trace st).
Definition with_symbols (n : nat) (st : State) : State :=
  mkState (disposed st) (events st) n (trace st).
Definition emit (e : Effect) (st : State) : State :=
  mkState (disposed st) (events st) (symbols st) (trace st ++ [e]).

(** The behaviour of the event targets, which the class does not own:
    whether a call of [addEventListener] / [removeEventListener] throws,
    and what.  It may depend on everything that happened before. *)
Record Targets := mkTargets {
  add_outcome : list Effect → Binding → Options → option Thrown;
  remove_outcome : list Effect → Binding → option Thrown
}.

(** ** A state-and-exception monad

    A computation runs on a state and either returns or throws; the
    state reached is kept in both cases, as mutations are in JavaScript. *)

Definition M (A : Type) : Type := State → Result A * State.

Definition ret {A} (a : A) : M A := fun st => (Ok a, st).
Definition throw {A} (x : Thrown) : M A := fun st => (Throw x, st).
Definition bind {A B} (m : M A) (k : A → M B) : M B :=
  fun st =>
    match m st with
    | (Ok a, st') => k a st'
    | (Throw x, st') => (Throw x, st')
    end.
Definition try_catch {A} (m : M A) (handler : Thrown → M A) : M A :=
  fun st =>
    match m st with
    | (Ok a, st') => (Ok a, st')
    | (Throw x, st') => handler x st'
    end.
Definition lift {A} (r : Result A) : M A := fun st => (r, st).
Definition gets {A} (f : State → A) : M A := fun st => (Ok (f st), st).
Definition modify (f : State → State) : M unit := fun st => (Ok tt, f st).

Declare Scope js_scope.
Delimit Scope js_scope with js.
Notation "x <- m ;; k" := (bind m (fun x => k))
  (at level 100, m at next level, right associativity) : js_scope.
Notation "m ;; k" := (bind m (fun _ => k))
  (at level 100, right associativity) : js_scope.
Open Scope js_scope.

Definition console_debug (m : LogMessage) : M unit := modify (emit (ConsoleDebug m)).
Definition console_warn (m : LogMessage) : M unit := modify (emit (ConsoleWarn m)).

(** [Symbol()] *)
Definition fresh_symbol : M nat :=
  fun st => (Ok (symbols st), with_symbols (S (symbols st)) st).

Definition events_get (target : nat) : M (option Entry) :=
  gets (fun st => JsMap.get target (events st)).
Definition events_set (target : nat) (e : Entry) : M unit :=
  modify (fun st => with_events (JsMap.set target e (events st)) st).
Definition events_delete (target : nat) : M unit :=
  modify (fun st => with_events (JsMap.delete target (events st)) st).
Definition events_clear : M unit := modify (with_events []).

(** ** The class *)

Section EventManager.

(** The targets the manager is used with. *)
Variable W : Targets.

(** [target.addEventListener(eventName, callback, options)] *)
Definition addEventListener (b : Binding) (options : Options) : M unit :=
  fun st =>
    let st' := emit (AddEventListener b options) st in
    match add_outcome W (trace st) b options with
    | None => (Ok tt, st')
    | Some x => (Throw x, st')
    end.

(** [target.removeEventListener(eventName, callback)] *)
Definition removeEventListener (b : Binding) : M unit :=
  fun st =>
    let st' := emit (RemoveEventListener b) st in
    match remove_outcome W (trace st) b with
    | None => (Ok tt, st')
    | Some x => (Throw x, st')
    end.

(** [#callbackDispose] (lines 61-72) *)
Definition callbackDispose (b : Binding) : M unit :=
  try_catch (removeEventListener b)
    (fun error =>
       if instanceof_Error error
       then console_debug (MsgRemoveFailed (bd_target b) error)
       else console_debug (MsgRemoveFailedUnknown (bd_target b))).

(** Calling the arrow function of lines 97-100. *)
Definition call_deferred (f : DeferCallback) : M unit :=
  let 'DeferDispose b := f in
  console_debug (MsgDisposingListener b) ;;
  callbackDispose b.

(** DisposeResources of the explicit-resource-management proposal:
    every callback is called, even after one of them threw; what they
    throw is chained into a [SuppressedError] that is thrown at the
    end.  [rs] is what is still to call, in calling order, and
    [completion] what was thrown so far. *)
Fixpoint dispose_resources (rs : list DeferCallback)
    (completion : option Thrown) : M unit :=
  match rs with
  | [] =>
      match completion with
      | None => ret tt
      | Some x => throw x
      end
  | f :: rs' =>
      fun st =>
        match call_deferred f st with
        | (Ok _, st') => dispose_resources rs' completion st'
        | (Throw x, st') =>
            let chained :=
              match completion with
              | None => x
              | Some c => JsSuppressedError x c
              end in
            dispose_resources rs' (Some chained) st'
        end
  end.

(** [entry[0].move()], where [entry] is the tuple that [#events] holds
    for [target]: the stack object inside the map is the one mutated,
    so the map shows it spent from here on. *)
Definition entry_stack_move (target : nat) (entry : Entry) : M DisposableStack.t :=
  match DisposableStack.move entry.1 with
  | Throw x => throw x
  | Ok (moved, old) =>
      events_set target (old, entry.2) ;;
      ret moved
  end.

(** [entry[0][Symbol.dispose]()] for the tuple held for [target]: no
    effect on a disposed stack; otherwise the stack is marked disposed
    and its callbacks are called, last deferred first. *)
Definition entry_stack_dispose (target : nat) (entry : Entry) : M unit :=
  if DisposableStack.ds_disposed entry.1 then ret tt
  else
    events_set target (DisposableStack.spent, entry.2) ;;
    dispose_resources (rev (DisposableStack.ds_resources entry.1)) None.

(** Calling the arrow function of lines 103-119.  The [delete] of line
    117 mutates the map object of the tuple; line 118 then removes the
    tuple or replaces it by one holding the same map object, and no
    code runs in between, so the deletion is written with line 118. *)
Definition call_early (f : EarlyEventDispose) : M unit :=
  let 'EarlyDispose b symbol := f in
  let target := bd_target b in
  console_debug (MsgDisposingEarly b) ;;
  callbackDispose b ;;
  entry <- events_get target ;;
  match entry with
  | None => console_warn (MsgNoEvent target)
  | Some entry =>
      currentStack <- entry_stack_move target entry ;;
      let currentEarlyDisposeMap := delete symbol entry.2 in
      if decide (size currentEarlyDisposeMap = 0)
      then events_delete target
      else
        moved <- lift (DisposableStack.move currentStack) ;;
        events_set target (moved.1, currentEarlyDisposeMap)
  end.

(** [register] (lines 83-124).  In the first branch [s] is declared
    with [using]: it is disposed when the block is left, after
    [s.move()] has emptied it.  In the second branch [earlyDisposeMap]
    is the map object of the stored tuple; the [set] of line 103 is
    written with line 121, which stores a tuple with the same map. *)
Definition register (target : nat) (eventName : EventName) (callback : nat)
    (options : Options) : M nat :=
  let b := mkBinding target eventName callback in
  entry <- events_get target ;;
  locals <-
    match entry with
    | None =>
        moved <- lift (DisposableStack.move DisposableStack.new) ;;
        (if DisposableStack.ds_disposed moved.2 then ret tt
         else dispose_resources (rev (DisposableStack.ds_resources moved.2)) None) ;;
        ret (moved.1, (∅ : gmap nat EarlyEventDispose))
    | Some entry =>
        stack <- entry_stack_move target entry ;;
        ret (stack, entry.2)
    end ;;
  let stack := locals.1 in
  let earlyDisposeMap := locals.2 in
  addEventListener b options ;;
  stack <- lift (DisposableStack.defer (DeferDispose b) stack) ;;
  symbol <- fresh_symbol ;;
  let earlyDisposeMap := <[symbol := EarlyDispose b symbol]> earlyDisposeMap in
  moved <- lift (DisposableStack.move stack) ;;
  events_set target (moved.1, earlyDisposeMap) ;;
  ret symbol.

(** [deregister] (lines 133-143) *)
Definition deregister (target symbol : nat) : M unit :=
  entry <- events_get target ;;
  match entry with
  | None => console_warn (MsgNoListener target symbol)
  | Some entry =>
      let earlyDisposeMap := entry.2 in
      match earlyDisposeMap !! symbol with
      | Some dispose => call_early dispose
      | None => console_warn (MsgNoEarlyListener target symbol)
      end
  end.

(** The loop of lines 148-150 over the keys of [#events], in insertion
    order.  The callbacks called inside never add or remove a key. *)
Fixpoint dispose_entries (targets : list nat) : M unit :=
  match targets with
  | [] => ret tt
  | target :: rest =>
      entry <- events_get target ;;
      match entry with
      | None => ret tt
      | Some entry => entry_stack_dispose target entry
      end ;;
      dispose_entries rest
  end.

(** [[Symbol.dispose]] (lines 145-154), the spec's [disposeAll] *)
Definition dispose : M unit :=
  d <- gets disposed ;;
  if negb d then
    modify (with_disposed true) ;;
    targets <- gets (fun st => JsMap.keys (events st)) ;;
    dispose_entries targets ;;
    events_clear ;;
    console_debug MsgDisposed
  else ret tt.

End EventManager.

(** ** Running programs against the manager *)

Inductive Op :=
| OpRegister (target : nat) (eventName : EventName) (callback : nat) (options : Options)
| OpDeregister (target symbol : nat)
| OpDispose.

(** The state after one call, whether it returned or threw. *)
Definition step (W : Targets) (op : Op) (st : State) : State :=
  match op with
  | OpRegister t e c o => (register W t e c o st).2
  | OpDeregister t s => (deregister W t s st).2
  | OpDispose => (dispose W st).2
  end.

Definition run (W : Targets) (ops : list Op) (st : State) : State :=
  foldl (fun st op => step W op st) st ops.

(** Targets that never throw. *)
Definition calm : Targets := mkTargets (fun _ _ _ => None) (fun _ _ => None).

(** Targets that refuse the listener [callback] and accept all others. *)
Definition rejecting (callback : nat) : Targets :=
  mkTargets
    (fun _ b _ => if decide (bd_callback b = callback)
                  then Some (JsError "rejected") else None)
    (fun _ _ => None).

(** Targets that accept every listener but throw on every removal. *)
Definition stubborn : Targets :=
  mkTargets (fun _ _ _ => None) (fun _ _ => Some (JsError "gone")).

(** Targets that accept every listener. *)
Definition accepting (W : Targets) : Prop :=
  ∀ tr b o, add_outcome W tr b o = None.

(** ** Observations on states and traces *)

(** Appending several effects at once. *)
Definition emits (es : list Effect) (st : State) : State :=
  mkState (disposed st) (events st) (symbols st) (trace st ++ es).

(** What the class itself holds: the disposed flag and the ledgers. *)
Definition registry (st : State) : bool * list (nat * Entry) :=
  (disposed st, events st).

(** The ledger of a target, its handles and its release sequence. *)
Definition ledger (st : State) (target : nat) : option Entry :=
  JsMap.get target (events st).

Definition handles (st : State) (target : nat) : gmap nat EarlyEventDispose :=
  match ledger st target with
  | Some entry => entry.2
  | None => ∅
  end.

Definition release_sequence (st : State) (target : nat) : list DeferCallback :=
  match ledger st target with
  | Some entry => DisposableStack.ds_resources entry.1
  | None => []
  end.

(** The bindings detached by a piece of trace, in call order. *)
Fixpoint detached (es : list Effect) : list Binding :=
  match es with
  | [] => []
  | RemoveEventListener b :: es' => b :: detached es'
  | _ :: es' => detached es'
  end.

(** The part of the trace of [st'] that was appended since [st]. *)
Definition since (st st' : State) : list Effect :=
  drop (length (trace st)) (trace st').

(** What [#callbackDispose] appends to the trace [tr]. *)
Definition detach_effects (W : Targets) (tr : list Effect) (b : Binding) : list Effect :=
  RemoveEventListener b ::
  match remove_outcome W tr b with
  | None => []
  | Some x =>
      [ConsoleDebug (if instanceof_Error x
                     then MsgRemoveFailed (bd_target b) x
                     else MsgRemoveFailedUnknown (bd_target b))]
  end.

(** What calling the deferred callbacks [rs], in that order, appends. *)
Fixpoint release_effects (W : Targets) (tr : list Effect)
    (rs : list DeferCallback) : list Effect :=
  match rs with
  | [] => []
  | DeferDispose b :: rs' =>
      let es := ConsoleDebug (MsgDisposingListener b) ::
                detach_effects W (tr ++ [ConsoleDebug (MsgDisposingListener b)]) b in
      es ++ release_effects W (tr ++ es) rs'
  end.

(** The state in which [register] leaves the manager when it returns:
    [resources] and [m] are the release sequence and the handles that
    the target had before. *)
Definition registered (st : State) (b : Binding) (o : Options)
    (resources : list DeferCallback) (m : gmap nat EarlyEventDispose) : State :=
  mkState (disposed st)
    (JsMap.set (bd_target b)
       (DisposableStack.mk false (resources ++ [DeferDispose b]),
        <[symbols st := EarlyDispose b (symbols st)]> m)
       (events st))
    (S (symbols st))
    (trace st ++ [AddEventListener b o]).

(** The state after the first two statements of the early-dispose
    closure. *)
Definition early_detached (W : Targets) (st : State) (b : Binding) : State :=
  emits (ConsoleDebug (MsgDisposingEarly b) ::
         detach_effects W (trace st ++ [ConsoleDebug (MsgDisposingEarly b)]) b) st.

(** What the loop of [dispose] appends for the ledgers [ev], and the
    ledgers it leaves. *)
Fixpoint sweep_effects (W : Targets) (tr : list Effect)
    (ev : list (nat * Entry)) : list Effect :=
  match ev with
  | [] => []
  | (_, entry) :: ev' =>
      let es :=
        if DisposableStack.ds_disposed entry.1 then []
        else release_effects W tr (rev (DisposableStack.ds_resources entry.1)) in
      es ++ sweep_effects W (tr ++ es) ev'
  end.

Definition swept (ev : list (nat * Entry)) : list (nat * Entry) :=
  (fun kv : nat * Entry =>
     if DisposableStack.ds_disposed kv.2.1 then kv
     else (kv.1, (DisposableStack.spent, kv.2.2))) <$> ev.

(** The binding a deferred callback closes over. *)
Definition deferred_binding (f : DeferCallback) : Binding :=
  let 'DeferDispose b := f in b.

(** The detach calls that the ledgers [ev] have scheduled for bulk
    disposal: per target, last deferred first. *)
Fixpoint scheduled (ev : list (nat * Entry)) : list Binding :=
  match ev with
  | [] => []
  | (_, entry) :: ev' =>
      (if DisposableStack.ds_disposed entry.1 then []
       else deferred_binding <$> rev (DisposableStack.ds_resources entry.1))
      ++ scheduled ev'
  end.

(** A JavaScript [Map] holds a key once. *)
Definition keys_unique (st : State) : Prop := NoDup (JsMap.keys (events st)).

(** Sample listeners and states used to exercise the statements. *)
Definition listener_A : Binding := mkBinding 7 "a" 1.
Definition listener_B : Binding := mkBinding 7 "b" 2.
Definition listener_C : Binding := mkBinding 7 "c" 3.

Definition two_listeners : State :=
  run calm [OpRegister 7 "a" 1 OptUndefined; OpRegister 7 "b" 2 OptUndefined] new_manager.

(** Whether [deregister] returns or throws, read off the ledgers. *)
Definition deregister_outcome (st : State) (target symbol : nat) : Result unit :=
  match ledger st target with
  | None => Ok tt
  | Some entry =>
      match entry.2 !! symbol with
      | None => Ok tt
      | Some (EarlyDispose b _) =>
          match ledger st (bd_target b) with
          | None => Ok tt
          | Some entry' =>
              if DisposableStack.ds_disposed entry'.1
              then Throw JsReferenceError else Ok tt
          end
      end
  end.

(** ** Statements about the manager *)

(** Every stack held by the manager can still be moved and disposed. *)
Definition stacks_live (st : State) : Prop :=
  ∀ target entry, ledger st target = Some entry →
    DisposableStack.ds_disposed entry.1 = false.

(** A target is tracked exactly when it has a handle left. *)
Definition ledger_iff_live (st : State) : Prop :=
  ∀ target, is_Some (ledger st target) ↔ handles st target ≠ ∅.

(** Every handle held by the manager was produced by an earlier call of
    [Symbol()]. *)
Definition handles_issued (st : State) : Prop :=
  ∀ target symbol, is_Some (handles st target !! symbol) → symbol < symbols st.

(** Every handle closes over its own target and symbol, and its binding
    has a release action in the target's release sequence. *)
Definition handles_scheduled (st : State) : Prop :=
  ∀ target h b s,
    handles st target !! h = Some (EarlyDispose b s) →
    bd_target b = target ∧ s = h ∧ DeferDispose b ∈ release_sequence st target.

(** Every handle closes over the target of its ledger and over its own
    symbol. *)
Definition closures_own (st : State) : Prop :=
  ∀ target h b s,
    handles st target !! h = Some (EarlyDispose b s) →
    bd_target b = target ∧ s = h.

(** The target a call is made for. *)
Definition op_target (op : Op) : option nat :=
  match op with
  | OpRegister target _ _ _ => Some target
  | OpDeregister target _ => Some target
  | OpDispose => None
  end.

(** Registering a listener and releasing it right away with the symbol
    that [register] returned. *)
Definition register_then_deregister (W : Targets) (target : nat)
    (eventName : EventName) (callback : nat) (options : Options)
    (st : State) : State :=
  match register W target eventName callback options st with
  | (Ok symbol, st') => (deregister W target symbol st').2
  | (Throw _, st') => st'
  end.

(** Registering listeners on any targets, in order; stops at the first
    call that throws. *)
Fixpoint register_each (W : Targets) (regs : list (Binding * Options)) : M (list nat) :=
  match regs with
  | [] => ret []
  | (b, options) :: rest =>
      symbol <- register W (bd_target b) (bd_eventName b) (bd_callback b) options ;;
      symbols <- register_each W rest ;;
      ret (symbol :: symbols)
  end.

(** The elements of a list in the order of their first occurrence. *)
Fixpoint first_seen (ts : list nat) : list nat :=
  match ts with
  | [] => []
  | t :: ts' => t :: filter (λ t', t' ≠ t) (first_seen ts')
  end.

(** The bindings of [bs] on one target, in registration order. *)
Definition on_target (target : nat) (bs : list Binding) : list Binding :=
  filter (λ b, bd_target b = target) bs.

(** Target by target in the order of first registration, and for each
    target its bindings, last registered first. *)
Definition disposal_order (bs : list Binding) : list Binding :=
  mjoin ((λ target, rev (on_target target bs)) <$> first_seen (bd_target <$> bs)).

(** The bindings that each ledger has scheduled, in registration
    order. *)
Definition stacks_of (ev : list (nat * Entry)) : list (nat * list Binding) :=
  (λ kv : nat * Entry,
     (kv.1, deferred_binding <$> DisposableStack.ds_resources kv.2.1)) <$> ev.

(** What one successful [register] does to [stacks_of]. *)
Definition stack_add (b : Binding) (A : list (nat * list Binding)) : list (nat * list Binding) :=
  JsMap.set (bd_target b) (default [] (JsMap.get (bd_target b) A) ++ [b]) A.

Definition all_live (ev : list (nat * Entry)) : Prop :=
  Forall (λ kv : nat * Entry, DisposableStack.ds_disposed kv.2.1 = false) ev.

(** ** The life cycle that callers observe

    What the calls made so far, and how they ended, say about the
    bindings, without looking into the manager: a binding, named by its
    target and its symbol, is live from the [register] call that
    returned the symbol until a [deregister] call for that target and
    symbol returns, or until the manager is disposed of, which happens
    at the first [dispose] call and only then.  A call that throws
    releases nothing and registers nothing. *)
Record Lifecycle := mkLifecycle {
  lc_live : gset (nat * nat);
  lc_disposed : bool
}.

(** Before any call. *)
Definition no_calls : Lifecycle := mkLifecycle ∅ false.

(** The life cycle after the call [op] made in state [st]. *)
Definition lifecycle_step (W : Targets) (op : Op) (st : State)
    (lc : Lifecycle) : Lifecycle :=
  match op with
  | OpRegister target eventName callback options =>
      match (register W target eventName callback options st).1 with
      | Ok symbol => mkLifecycle ({[(target, symbol)]} ∪ lc_live lc) (lc_disposed lc)
      | Throw _ => lc
      end
  | OpDeregister target symbol =>
      match (deregister W target symbol st).1 with
      | Ok _ => mkLifecycle (lc_live lc ∖ {[(target, symbol)]}) (lc_disposed lc)
      | Throw _ => lc
      end
  | OpDispose =>
      if lc_disposed lc then lc else mkLifecycle ∅ true
  end.

(** The manager and the life cycle after the calls [ops]. *)
Definition run_lifecycle (W : Targets) (ops : list Op) (st : State)
    (lc : Lifecycle) : State * Lifecycle :=
  foldl (λ r op, (step W op r.1, lifecycle_step W op r.1 r.2)) (st, lc) ops.

(** A ledger is stored for a target exactly when one of its bindings is
    live. *)
Definition ledger_iff_binding (st : State) (lc : Lifecycle) : Prop :=
  ∀ target,
    is_Some (ledger st target) ↔ ∃ symbol, (target, symbol) ∈ lc_live lc.

(** The manager agrees with the life cycle: the same disposed flag, the
    live bindings are the handles that the ledgers hold, each closing
    over its own target and symbol, and no ledger is without a handle. *)
Definition tracks (st : State) (lc : Lifecycle) : Prop :=
  lc_disposed lc = disposed st ∧
  closures_own st ∧
  ledger_iff_live st ∧
  ∀ target symbol,
    (target, symbol) ∈ lc_live lc ↔ is_Some (handles st target !! symbol).

(** Registering the listeners [regs] on one target, in order; stops at
    the first call that throws. *)
Fixpoint register_all (W : Targets) (target : nat)
    (regs : list (string * nat * Options)) : M (list nat) :=
  match regs with
  | [] => ret []
  | (eventName, callback, options) :: rest =>
      symbol <- register W target eventName callback options ;;
      symbols <- register_all W target rest ;;
      ret (symbol :: symbols)
  end.

Definition binding_of (target : nat) (r : string * nat * Options) : Binding :=
  mkBinding target r.1.1 r.1.2.

(** [dispose] called [n] times in a row. *)
Definition dispose_times (W : Targets) (n : nat) (st : State) : State :=
  Nat.iter n (step W OpDispose) st.

(** The reading of "deregister removes the binding from the handle map
    and from the release sequence, so that bulk disposal does not detach
    it again". *)
Definition released_for_good (W : Targets) (st : State) (target symbol : nat) : Prop :=
  ∀ b st1,
    handles st target !! symbol = Some (EarlyDispose b symbol) →
    deregister W target symbol st = (Ok tt, st1) →
    handles st1 target !! symbol = None ∧
    (DeferDispose b ∉ release_sequence st1 target) ∧
    (b ∉ detached (since st1 (dispose W st1).2)).

(** The reading of "after disposeAll() returns the registry is empty". *)
Definition empty_after_dispose (W : Targets) (st : State) : Prop :=
  ∀ st', dispose W st = (Ok tt, st') →
    events st' = [] ∧ ∀ target symbol, handles st' target !! symbol = None.

(** The reading of "a register call whose attach throws leaves the
    registry as it was". *)
Definition failed_register_keeps_registry (W : Targets) (st : State)
    (target : nat) (eventName : string) (callback : nat) (options : Options) : Prop :=
  ∀ x st', register W target eventName callback options st = (Throw x, st') →
    registry st' = registry st.

(** The ways in which a call can leave the ledgers: untouched; one
    stack replaced; one ledger extended by the next symbol; one symbol
    deleted from a ledger that keeps others; one ledger removed; all
    ledgers removed. *)
Inductive ledgers_change (op : Op) (st st' : State) : Prop :=
| change_none :
    events st' = events st →
    ledgers_change op st st'
| change_stack t stk0 stk m :
    ledger st t = Some (stk0, m) →
    events st' = JsMap.set t (stk, m) (events st) →
    ledgers_change op st st'
| change_register t e c o stk :
    op = OpRegister t e c o →
    symbols st' = S (symbols st) →
    events st' =
      JsMap.set t (stk, <[symbols st := EarlyDispose (mkBinding t e c) (symbols st)]>
                          (handles st t)) (events st) →
    ledgers_change op st st'
| change_release t s stk :
    delete s (handles st t) ≠ ∅ →
    events st' = JsMap.set t (stk, delete s (handles st t)) (events st) →
    ledgers_change op st st'
| change_drop t :
    events st' = JsMap.delete t (events st) →
    ledgers_change op st st'
| change_clear :
    events st' = [] →
    ledgers_change op st st'.

(** ** The first version of the class

    [src/unnamed/part_000] also holds the earlier [EventManager]: it
    keeps, per target and event name, the array of registered callbacks,
    has no symbols and no disposed flag, and throws where the later
    version warns. *)

(** A JavaScript [Map] with keys of any type that has a decidable
    equality, in insertion order. *)
Module KeyMap.
Section KeyMap.
Context {K : Type} `{EqDecision K} {V : Type}.

Fixpoint get (k : K) (m : list (K * V)) : option V :=
  match m with
  | [] => None
  | (k', v) :: m' => if decide (k' = k) then Some v else get k m'
  end.

Fixpoint set (k : K) (v : V) (m : list (K * V)) : list (K * V) :=
  match m with
  | [] => [(k, v)]
  | (k', v') :: m' =>
      if decide (k' = k) then (k, v) :: m' else (k', v') :: set k v m'
  end.

Fixpoint delete (k : K) (m : list (K * V)) : list (K * V) :=
  match m with
  | [] => []
  | (k', v') :: m' =>
      if decide (k' = k) then delete k m' else (k', v') :: delete k m'
  end.

Definition keys (m : list (K * V)) : list K := m.*1.

End KeyMap.
End KeyMap.

Module V1.

(** What the class does to the outside world. *)
Inductive Error :=
| NoEventForTarget (target : nat)
| NoEventForName (target : nat) (eventName : EventName)
| RegisterFailed (target : nat) (error : Thrown)
| RegisterFailedUnknown (target : nat)
| DeregisterFailed (target : nat) (error : Thrown)
| DeregisterFailedUnknown (target : nat).

Inductive Effect :=
| CallAdd (b : Binding) (options : Options)
| CallRemove (b : Binding)
| WarnDisposeFailed (target : nat) (error : Error).

Inductive Outcome :=
| Returned
| Threw (error : Error).

(** [#events], and the history of effects, oldest first. *)
Record State := mkState {
  events : list (nat * list (EventName * list nat));
  trace : list Effect
}.

(** [new EventManager()] *)
Definition new_manager : State := mkState [] [].

Definition with_events (ev : list (nat * list (EventName * list nat))) (st : State) : State :=
  mkState ev (trace st).
Definition emit (e : Effect) (st : State) : State :=
  mkState (events st) (trace st ++ [e]).

Record Targets := mkTargets {
  add_outcome : list Effect → Binding → Options → option Thrown;
  remove_outcome : list Effect → Binding → option Thrown
}.

(** [events.findIndex(event => event === callback)]: the first index
    holding [callback], [None] for -1. *)
Fixpoint findIndex (callback : nat) (events : list nat) : option nat :=
  match events with
  | [] => None
  | event :: rest =>
      if decide (event = callback) then Some 0
      else S <$> findIndex callback rest
  end.

(** The array registered for a target and an event name; empty when
    there is none. *)
Definition callbacks (st : State) (target : nat) (eventName : EventName) : list nat :=
  match KeyMap.get target (events st) with
  | Some targetEvents => default [] (KeyMap.get eventName targetEvents)
  | None => []
  end.

Section Class.
Variable W : Targets.

(** [register] (lines 71-86).  The array and the inner map are mutated
    in place and then stored again under their keys; nothing between
    [push] and the last [set] can throw. *)
Definition register (target : nat) (eventName : EventName) (callback : nat)
    (options : Options) (st : State) : Outcome * State :=
  let b := mkBinding target eventName callback in
  let st' := emit (CallAdd b options) st in
  match add_outcome W (trace st) b options with
  | Some error =>
      (Threw (if instanceof_Error error
              then RegisterFailed target error
              else RegisterFailedUnknown target), st')
  | None =>
      let targetEvents := default [] (KeyMap.get target (events st')) in
      let events_ := default [] (KeyMap.get eventName targetEvents) in
      let events_ := events_ ++ [callback] in
      let targetEvents := KeyMap.set eventName events_ targetEvents in
      (Returned, with_events (KeyMap.set target targetEvents (events st')) st')
  end.

(** [deregister] (lines 94-127).  [splice] mutates the array in place,
    and the array and the inner map are stored again or deleted right
    after it. *)
Definition deregister (target : nat) (eventName : EventName) (callback : nat)
    (st : State) : Outcome * State :=
  let b := mkBinding target eventName callback in
  match KeyMap.get target (events st) with
  | None => (Threw (NoEventForTarget target), st)
  | Some targetEvents =>
      match KeyMap.get eventName targetEvents with
      | None => (Threw (NoEventForName target eventName), st)
      | Some events_ =>
          match findIndex callback events_ with
          | None => (Threw (NoEventForName target eventName), st)
          | Some eventIndex =>
              let st' := emit (CallRemove b) st in
              match remove_outcome W (trace st) b with
              | Some error =>
                  (Threw (if instanceof_Error error
                          then DeregisterFailed target error
                          else DeregisterFailedUnknown target), st')
              | None =>
                  let events_ := delete eventIndex events_ in
                  let targetEvents :=
                    if decide (length events_ = 0)
                    then KeyMap.delete eventName targetEvents
                    else KeyMap.set eventName events_ targetEvents in
                  (Returned,
                   with_events
                     (if decide (length targetEvents = 0)
                      then KeyMap.delete target (events st')
                      else KeyMap.set target targetEvents (events st')) st')
              end
          end
      end
  end.

(** The innermost loop of [[Symbol.dispose]] (lines 137-147):
    [for (const event of events)] reads the array by index, and
    [deregister] splices that same array while the loop runs.  The array
    is the one stored for the target and the event name; when
    [deregister] has deleted the key, the array is empty.  Everything
    [deregister] throws is an [Error], so the handler always prints the
    first message.  [fuel] bounds the number of rounds: the index grows
    by one in each round and the array never grows. *)
Fixpoint dispose_events (fuel : nat) (target : nat) (eventName : EventName)
    (index : nat) (st : State) : State :=
  match fuel with
  | 0 => st
  | S fuel' =>
      match callbacks st target eventName !! index with
      | None => st
      | Some event =>
          let '(r, st') := deregister target eventName event st in
          let st'' :=
            match r with
            | Returned => st'
            | Threw error => emit (WarnDisposeFailed target error) st'
            end in
          dispose_events fuel' target eventName (S index) st''
      end
  end.

(** The loop over the event names of one target (line 136); the only
    key that the body deletes is the one being visited. *)
Fixpoint dispose_names (target : nat) (names : list EventName) (st : State) : State :=
  match names with
  | [] => st
  | eventName :: rest =>
      let st' :=
        dispose_events (length (callbacks st target eventName)) target eventName 0 st in
      dispose_names target rest st'
  end.

(** The loop over the targets (line 135). *)
Fixpoint dispose_targets (targets : list nat) (st : State) : State :=
  match targets with
  | [] => st
  | target :: rest =>
      let names :=
        match KeyMap.get target (events st) with
        | Some targetEvents => KeyMap.keys targetEvents
        | None => []
        end in
      dispose_targets rest (dispose_names target names st)
  end.

(** [[Symbol.dispose]] (lines 134-150) *)
Definition dispose (st : State) : State :=
  dispose_targets (KeyMap.keys (events st)) st.

End Class.

(** Targets that never throw. *)
Definition calm : Targets := mkTargets (fun _ _ _ => None) (fun _ _ => None).

(** Targets whose [removeEventListener] never throws. *)
Definition removable (W : Targets) : Prop := ∀ tr b, remove_outcome W tr b = None.

(** The elements at the odd positions: what a loop that removes the
    element under its index and then moves the index on leaves behind. *)
Fixpoint skipped (l : list nat) : list nat :=
  match l with
  | [] => []
  | _ :: l' =>
      match l' with
      | [] => []
      | y :: l'' => y :: skipped l''
      end
  end.

(** A [Map] holds a key once, at both levels. *)
Definition keys_unique (st : State) : Prop :=
  NoDup (KeyMap.keys (events st)) ∧
  ∀ target targetEvents,
    KeyMap.get target (events st) = Some targetEvents →
    NoDup (KeyMap.keys targetEvents).

(** No target is stored without an event name, and no event name
    without a callback. *)
Definition tidy (st : State) : Prop :=
  ∀ target targetEvents,
    KeyMap.get target (events st) = Some targetEvents →
    targetEvents ≠ [] ∧
    ∀ eventName events_,
      KeyMap.get eventName targetEvents = Some events_ → events_ ≠ [].

(** Programs against the first version. *)
Inductive Op :=
| OpRegister (target : nat) (eventName : EventName) (callback : nat) (options : Options)
| OpDeregister (target : nat) (eventName : EventName) (callback : nat)
| OpDispose.

Definition step (W : Targets) (op : Op) (st : State) : State :=
  match op with
  | OpRegister t e c o => (register W t e c o st).2
  | OpDeregister t e c => (deregister W t e c st).2
  | OpDispose => dispose W st
  end.

Definition run (W : Targets) (ops : list Op) (st : State) : State :=
  foldl (fun st op => step W op st) st ops.

(** Targets that keep every listener: [removeEventListener] always
    throws. *)
Definition clinging : Targets :=
  mkTargets (fun _ _ _ => None) (fun _ _ => Some (JsError "busy")).

End V1.

(** ** Basic facts *)

Lemma emits_nil st : emits [] st = st.
Proof. destruct st; unfold emits; simpl. by rewrite app_nil_r. Qed.

Lemma emits_emits es1 es2 st : emits es2 (emits es1 st) = emits (es1 ++ es2) st.
Proof. unfold emits; simpl. by rewrite app_assoc. Qed.

Lemma emit_emits e st : emit e st = emits [e] st.
Proof. reflexivity. Qed.

Lemma since_emits es st : since st (emits es st) = es.
Proof. unfold since, emits; simpl. by rewrite drop_app_length. Qed.

Lemma detached_app es1 es2 : detached (es1 ++ es2) = detached es1 ++ detached es2.
Proof.
  induction es1 as [|e es1 IH]; [done|].
  destruct e; simpl; by rewrite IH.
Qed.

Lemma detached_detach_effects W tr b : detached (detach_effects W tr b) = [b].
Proof. unfold detach_effects; simpl. by destruct (remove_outcome W tr b). Qed.

Lemma detached_release_effects W tr rs :
  detached (release_effects W tr rs) = deferred_binding <$> rs.
Proof.
  revert tr; induction rs as [|[b] rs IH]; intros tr; [done|].
  cbn [release_effects]. rewrite detached_app. cbn [detached].
  by rewrite detached_detach_effects, IH.
Qed.

Section Runs.
Variable W : Targets.

Lemma callbackDispose_run b st :
  callbackDispose W b st = (Ok tt, emits (detach_effects W (trace st) b) st).
Proof.
  unfold callbackDispose, try_catch, removeEventListener, detach_effects.
  destruct (remove_outcome W (trace st) b) as [x|]; [|done].
  destruct (instanceof_Error x); unfold console_debug, modify;
    by rewrite emit_emits, emit_emits, emits_emits.
Qed.

Lemma call_deferred_run b st :
  call_deferred W (DeferDispose b) st =
  (Ok tt, emits (ConsoleDebug (MsgDisposingListener b) ::
                 detach_effects W (trace st ++ [ConsoleDebug (MsgDisposingListener b)]) b) st).
Proof.
  unfold call_deferred, bind, console_debug, modify.
  rewrite callbackDispose_run, emit_emits, emits_emits. done.
Qed.

Lemma dispose_resources_run rs st :
  dispose_resources W rs None st = (Ok tt, emits (release_effects W (trace st) rs) st).
Proof.
  revert st; induction rs as [|[b] rs IH]; intros st.
  - simpl. by rewrite emits_nil.
  - cbn [dispose_resources release_effects].
    rewrite call_deferred_run, IH, emits_emits. done.
Qed.

End Runs.

(** ** The JavaScript map *)

Section JsMapFacts.
Context {V : Type}.
Implicit Types (m : list (nat * V)) (k : nat) (v : V).

Lemma get_set_eq k v m : JsMap.get k (JsMap.set k v m) = Some v.
Proof.
  induction m as [|[k' v'] m IH]; simpl.
  - by rewrite decide_True.
  - destruct (decide (k' = k)) as [->|Hne]; simpl.
    + by rewrite decide_True.
    + by rewrite decide_False.
Qed.

Lemma get_set_ne k k' v m : k ≠ k' → JsMap.get k' (JsMap.set k v m) = JsMap.get k' m.
Proof.
  intros Hne. induction m as [|[k0 v0] m IH]; simpl.
  - by rewrite decide_False.
  - destruct (decide (k0 = k)) as [->|Hk]; simpl.
    + by rewrite !decide_False.
    + by rewrite IH.
Qed.

Lemma set_set k v1 v2 m : JsMap.set k v2 (JsMap.set k v1 m) = JsMap.set k v2 m.
Proof.
  induction m as [|[k0 v0] m IH]; simpl.
  - by rewrite decide_True.
  - destruct (decide (k0 = k)) as [->|Hk]; simpl.
    + by rewrite decide_True.
    + by rewrite decide_False, IH.
Qed.

Lemma get_delete_eq k m : JsMap.get k (JsMap.delete k m) = None.
Proof.
  induction m as [|[k0 v0] m IH]; [done|]; simpl.
  destruct (decide (k0 = k)); [done|]. simpl. by rewrite decide_False.
Qed.

Lemma get_delete_ne k k' m : k ≠ k' → JsMap.get k' (JsMap.delete k m) = JsMap.get k' m.
Proof.
  intros Hne. induction m as [|[k0 v0] m IH]; [done|]; simpl.
  destruct (decide (k0 = k)) as [->|Hk]; simpl.
  - by rewrite decide_False.
  - by rewrite IH.
Qed.

Lemma get_Some_keys k v m : JsMap.get k m = Some v → k ∈ JsMap.keys m.
Proof.
  induction m as [|[k0 v0] m IH]; [done|]; simpl.
  destruct (decide (k0 = k)) as [->|Hk]; intros H.
  - apply list_elem_of_here.
  - apply list_elem_of_further; auto.
Qed.

Lemma get_None_keys k m : JsMap.get k m = None ↔ k ∉ JsMap.keys m.
Proof.
  induction m as [|[k0 v0] m IH]; simpl.
  - split; [intros _; apply not_elem_of_nil | done].
  - rewrite not_elem_of_cons. destruct (decide (k0 = k)) as [->|Hk].
    + split; [done | intros [? _]; done].
    + rewrite IH. split; [intros ?; split; [congruence|done] | intros [_ ?]; done].
Qed.

Lemma keys_set_tracked k v m :
  k ∈ JsMap.keys m → JsMap.keys (JsMap.set k v m) = JsMap.keys m.
Proof.
  induction m as [|[k0 v0] m IH]; simpl.
  - intros H; by apply not_elem_of_nil in H.
  - intros H. destruct (decide (k0 = k)) as [->|Hk]; [done|]. simpl.
    f_equal. apply IH. apply elem_of_cons in H as [->|H]; done.
Qed.

Lemma keys_set_untracked k v m :
  k ∉ JsMap.keys m → JsMap.keys (JsMap.set k v m) = JsMap.keys m ++ [k].
Proof.
  induction m as [|[k0 v0] m IH]; simpl; [done|].
  rewrite not_elem_of_cons. intros [Hk H].
  rewrite decide_False by done. simpl. f_equal. by apply IH.
Qed.

Lemma set_untracked k v m :
  JsMap.get k m = None → JsMap.set k v m = m ++ [(k, v)].
Proof.
  induction m as [|[k0 v0] m IH]; simpl; [done|].
  destruct (decide (k0 = k)); [done|]. intros H. by rewrite IH.
Qed.

End JsMapFacts.

Lemma delete_set {V} (k : nat) (v : V) (m : list (nat * V)) :
  JsMap.delete k (JsMap.set k v m) = JsMap.delete k m.
Proof.
  induction m as [|[k0 v0] m IH]; simpl.
  - by rewrite decide_True.
  - destruct (decide (k0 = k)) as [->|Hk]; simpl.
    + by rewrite decide_True.
    + by rewrite decide_False, IH.
Qed.

Lemma set_get_id {V} (k : nat) (v : V) (m : list (nat * V)) :
  JsMap.get k m = Some v → JsMap.set k v m = m.
Proof.
  induction m as [|[k0 v0] m IH]; [done|]. simpl.
  destruct (decide (k0 = k)) as [->|Hk].
  - by intros [= ->].
  - intros H. by rewrite IH.
Qed.

(** ** What each method does, in closed form *)

Section Methods.
Variable W : Targets.

Lemma register_untracked t e c o st :
  ledger st t = None →
  register W t e c o st =
  let b := mkBinding t e c in
  match add_outcome W (trace st) b o with
  | Some x => (Throw x, emit (AddEventListener b o) st)
  | None => (Ok (symbols st), registered st b o [] ∅)
  end.
Proof.
  unfold ledger. intros Hget.
  unfold register, bind, events_get, gets. rewrite Hget. simpl.
  unfold addEventListener.
  destruct (add_outcome W (trace st) _ o); done.
Qed.

Lemma register_tracked t e c o st stk m :
  ledger st t = Some (stk, m) →
  DisposableStack.ds_disposed stk = false →
  register W t e c o st =
  let b := mkBinding t e c in
  match add_outcome W (trace st) b o with
  | Some x =>
      (Throw x,
       emit (AddEventListener b o)
         (with_events (JsMap.set t (DisposableStack.spent, m) (events st)) st))
  | None => (Ok (symbols st), registered st b o (DisposableStack.ds_resources stk) m)
  end.
Proof.
  unfold ledger. intros Hget Hlive.
  unfold register, bind, events_get, gets. rewrite Hget. simpl.
  unfold entry_stack_move, DisposableStack.move. simpl. rewrite Hlive. simpl.
  unfold addEventListener. simpl.
  destruct (add_outcome W (trace st) _ o); [done|].
  simpl. unfold registered. simpl. by rewrite set_set.
Qed.

Lemma register_spent t e c o st stk m :
  ledger st t = Some (stk, m) →
  DisposableStack.ds_disposed stk = true →
  register W t e c o st = (Throw JsReferenceError, st).
Proof.
  unfold ledger. intros Hget Hspent.
  unfold register, bind, events_get, gets. rewrite Hget. simpl.
  unfold entry_stack_move, DisposableStack.move. simpl. by rewrite Hspent.
Qed.

Lemma call_early_run b s st :
  call_early W (EarlyDispose b s) st =
  let st1 := early_detached W st b in
  match ledger st (bd_target b) with
  | None => (Ok tt, emit (ConsoleWarn (MsgNoEvent (bd_target b))) st1)
  | Some (stk, m) =>
      if DisposableStack.ds_disposed stk then (Throw JsReferenceError, st1)
      else if decide (size (delete s m) = 0)
      then (Ok tt, with_events (JsMap.delete (bd_target b) (events st)) st1)
      else (Ok tt,
            with_events
              (JsMap.set (bd_target b)
                 (DisposableStack.mk false (DisposableStack.ds_resources stk),
                  delete s m) (events st)) st1)
  end.
Proof.
  unfold ledger, call_early, bind, console_debug, modify.
  rewrite callbackDispose_run, emit_emits, emits_emits. simpl.
  unfold events_get, gets. simpl.
  destruct (JsMap.get (bd_target b) (events st)) as [[stk m]|] eqn:Hget; [|done].
  unfold entry_stack_move, DisposableStack.move. simpl.
  destruct (DisposableStack.ds_disposed stk); [done|]. simpl.
  destruct (decide (size (delete s m) = 0)); simpl.
  - unfold events_delete, modify, with_events. simpl. by rewrite delete_set.
  - unfold events_set, modify, with_events. simpl. by rewrite set_set.
Qed.

End Methods.

(** ** Bulk disposal *)

Section JsMapApp.
Context {V : Type}.
Implicit Types (m pre : list (nat * V)) (k : nat) (v : V).

Lemma get_app_fresh k v pre m :
  k ∉ JsMap.keys pre → JsMap.get k (pre ++ (k, v) :: m) = Some v.
Proof.
  induction pre as [|[k0 v0] pre IH]; simpl.
  - intros _. by rewrite decide_True.
  - rewrite not_elem_of_cons. intros [Hk H]. rewrite decide_False by done. auto.
Qed.

Lemma set_app_fresh k v v' pre m :
  k ∉ JsMap.keys pre →
  JsMap.set k v' (pre ++ (k, v) :: m) = pre ++ (k, v') :: m.
Proof.
  induction pre as [|[k0 v0] pre IH]; simpl.
  - intros _. by rewrite decide_True.
  - rewrite not_elem_of_cons. intros [Hk H]. rewrite decide_False by done.
    by rewrite IH.
Qed.

End JsMapApp.

Section Sweep.
Variable W : Targets.

Lemma dispose_entries_run ev : ∀ pre st,
  events st = pre ++ ev →
  NoDup (JsMap.keys (pre ++ ev)) →
  dispose_entries W (JsMap.keys ev) st =
  (Ok tt, mkState (disposed st) (pre ++ swept ev) (symbols st)
            (trace st ++ sweep_effects W (trace st) ev)).
Proof.
  induction ev as [|[t [stk m]] ev IH]; intros pre st Hev Hnd.
  - simpl. rewrite <- Hev, app_nil_r. by destruct st.
  - assert (Hfresh : t ∉ JsMap.keys pre).
    { unfold JsMap.keys in *. rewrite fmap_app in Hnd.
      apply NoDup_app in Hnd as (_ & Hdis & _).
      intros Hin. apply (Hdis t Hin). simpl. apply list_elem_of_here. }
    cbn [JsMap.keys fmap list_fmap fst dispose_entries].
    change (ev.*1) with (JsMap.keys ev).
    unfold bind at 1. unfold bind at 1. unfold events_get, gets. cbv beta.
    rewrite Hev, get_app_fresh by done.
    unfold entry_stack_dispose. cbn [fst snd sweep_effects swept fmap list_fmap].
    destruct (DisposableStack.ds_disposed stk) eqn:Hd.
    + unfold ret.
      rewrite (IH (pre ++ [(t, (stk, m))]) st).
      * rewrite <- app_assoc, app_nil_r. done.
      * by rewrite Hev, <- app_assoc.
      * by rewrite <- app_assoc.
    + unfold bind, events_set, modify.
      rewrite dispose_resources_run.
      set (st1 := emits _ _).
      rewrite (IH (pre ++ [(t, (DisposableStack.spent, m))]) st1).
      * subst st1. simpl. rewrite <- !app_assoc. done.
      * subst st1. simpl. rewrite Hev, set_app_fresh by done.
        by rewrite <- app_assoc.
      * rewrite <- app_assoc. simpl.
        unfold JsMap.keys in *. rewrite fmap_app in *. done.
Qed.

Lemma detached_sweep_effects tr ev :
  detached (sweep_effects W tr ev) = scheduled ev.
Proof.
  revert tr; induction ev as [|[t [stk m]] ev IH]; intros tr; [done|].
  cbn [sweep_effects scheduled fst snd].
  rewrite detached_app, IH. f_equal.
  destruct (DisposableStack.ds_disposed stk); [done|].
  apply detached_release_effects.
Qed.

(** [dispose] on a manager that is not yet disposed. *)
Lemma dispose_run st :
  keys_unique st →
  disposed st = false →
  dispose W st =
  (Ok tt, mkState true [] (symbols st)
            (trace st ++ sweep_effects W (trace st) (events st)
                      ++ [ConsoleDebug MsgDisposed])).
Proof.
  intros Hnd Hd. unfold dispose.
  unfold bind at 1. unfold gets at 1. rewrite Hd. cbn [negb].
  unfold bind at 1. unfold modify at 1.
  unfold bind at 1. unfold gets at 1.
  unfold bind at 1.
  change (events (with_disposed true st)) with (events st).
  rewrite (dispose_entries_run (events st) [] (with_disposed true st)); [|done..].
  simpl. unfold bind, events_clear, modify, console_debug, modify, emit, with_events.
  simpl. by rewrite <- app_assoc.
Qed.

(** [dispose] on a disposed manager. *)
Lemma dispose_again st : disposed st = true → dispose W st = (Ok tt, st).
Proof. intros Hd. unfold dispose, bind, gets. by rewrite Hd. Qed.

End Sweep.

Section Totality.
Variable W : Targets.

(** The loop of [dispose] never throws, whatever the ledgers hold. *)
Lemma dispose_entries_total targets : ∀ st, ∃ ev es,
  dispose_entries W targets st =
  (Ok tt, mkState (disposed st) ev (symbols st) (trace st ++ es)).
Proof.
  induction targets as [|t targets IH]; intros st.
  - exists (events st), []. simpl. rewrite app_nil_r. by destruct st.
  - cbn [dispose_entries]. unfold bind at 1. unfold bind at 1.
    unfold events_get, gets. cbv beta.
    destruct (JsMap.get t (events st)) as [[stk m]|].
    + unfold entry_stack_dispose. cbn [fst snd].
      destruct (DisposableStack.ds_disposed stk).
      * unfold ret. apply IH.
      * unfold bind, events_set, modify. rewrite dispose_resources_run.
        set (st1 := emits _ _).
        destruct (IH st1) as (ev & es & ->). subst st1. simpl.
        eexists ev, (_ ++ es). by rewrite app_assoc.
    + unfold ret. apply IH.
Qed.

Lemma dispose_total st :
  disposed st = false →
  ∃ es, dispose W st = (Ok tt, mkState true [] (symbols st) (trace st ++ es)).
Proof.
  intros Hd. unfold dispose.
  unfold bind at 1. unfold gets at 1. rewrite Hd. cbn [negb].
  unfold bind at 1. unfold modify at 1.
  unfold bind at 1. unfold gets at 1.
  unfold bind at 1.
  destruct (dispose_entries_total (JsMap.keys (events (with_disposed true st)))
              (with_disposed true st)) as (ev & es & ->).
  simpl. unfold bind, events_clear, modify, console_debug, modify, emit, with_events.
  simpl. eexists (es ++ _). by rewrite <- app_assoc.
Qed.

Lemma dispose_returns st : (dispose W st).1 = Ok tt.
Proof.
  destruct (disposed st) eqn:Hd.
  - by rewrite dispose_again.
  - by destruct (dispose_total st Hd) as (es & ->).
Qed.

Lemma dispose_sets_flag st : disposed (dispose W st).2 = true.
Proof.
  destruct (disposed st) eqn:Hd.
  - by rewrite dispose_again.
  - by destruct (dispose_total st Hd) as (es & ->).
Qed.

End Totality.

(** ** Idempotence of bulk disposal *)

(** C4. Disposing is idempotent: every call returns normally, and
    calling [dispose] any number of times greater than zero leaves the
    manager, and the trace of everything it did, exactly as the first
    call left them; the calls after the first change nothing. *)
Theorem dispose_idempotent (W : Targets) (st : State) (n : nat) :
  dispose_times W (S n) st = dispose_times W 1 st ∧
  dispose W (dispose_times W 1 st) = (Ok tt, dispose_times W 1 st) ∧
  (dispose W st).1 = Ok tt.
Proof.
  assert (Hagain : dispose W (dispose W st).2 = (Ok tt, (dispose W st).2)).
  { apply dispose_again, dispose_sets_flag. }
  split; [|split].
  - induction n as [|n IH]; [done|].
    change (dispose_times W (S (S n)) st)
      with (step W OpDispose (dispose_times W (S n) st)).
    rewrite IH. simpl. by rewrite Hagain.
  - exact Hagain.
  - apply dispose_returns.
Qed.

(** ** The state after bulk disposal *)

Lemma handles_no_ledgers st target : events st = [] → handles st target = ∅.
Proof. unfold handles, ledger. by intros ->. Qed.

Lemma deregister_untracked W st target symbol :
  ledger st target = None →
  deregister W target symbol st =
  (Ok tt, emit (ConsoleWarn (MsgNoListener target symbol)) st).
Proof.
  unfold ledger. intros Hget.
  unfold deregister, bind, events_get, gets. by rewrite Hget.
Qed.

Lemma deregister_unknown_symbol W st target symbol entry :
  ledger st target = Some entry →
  entry.2 !! symbol = None →
  deregister W target symbol st =
  (Ok tt, emit (ConsoleWarn (MsgNoEarlyListener target symbol)) st).
Proof.
  unfold ledger. intros Hget Hsym.
  unfold deregister, bind, events_get, gets. rewrite Hget. by rewrite Hsym.
Qed.

(** C5, as the code has it. A [dispose] call on a manager that is not
    yet disposed returns normally and leaves it disposed and empty: no
    ledger and no handle is left, and a later [deregister] with any
    target and any symbol finds no ledger, which it only reports. *)
Theorem dispose_empties (W : Targets) (st : State) :
  disposed st = false →
  ∃ st', dispose W st = (Ok tt, st') ∧
         registry st' = (true, []) ∧
         ∀ target symbol,
           handles st' target !! symbol = None ∧
           deregister W target symbol st' =
           (Ok tt, emit (ConsoleWarn (MsgNoListener target symbol)) st').
Proof.
  intros Hd. destruct (dispose_total W st Hd) as (es & Hrun).
  eexists. split; [exact Hrun|]. split; [done|].
  intros target symbol. split.
  - by rewrite handles_no_ledgers.
  - by apply deregister_untracked.
Qed.

Lemma dispose_empties_witness :
  ∃ st', dispose calm (run calm [OpRegister 7 "a" 1 OptUndefined] new_manager) = (Ok tt, st') ∧
         registry st' = (true, []) ∧
         ∀ target symbol,
           handles st' target !! symbol = None ∧
           deregister calm target symbol st' =
           (Ok tt, emit (ConsoleWarn (MsgNoListener target symbol)) st').
Proof. apply (dispose_empties calm); reflexivity. Defined.

(** C5, as stated, fails on a manager that was disposed before: a
    listener registered after the first disposal survives the second
    one, together with its ledger and its handle. *)
Lemma dispose_leaves_late_ledgers :
  ¬ empty_after_dispose calm
      (run calm [OpDispose; OpRegister 7 "a" 1 OptUndefined] new_manager).
Proof.
  intros Hclaim.
  destruct (Hclaim (run calm [OpDispose; OpRegister 7 "a" 1 OptUndefined] new_manager))
    as [Hev _]; [by vm_compute|].
  vm_compute in Hev. discriminate Hev.
Qed.

(** ** Unknown targets and symbols *)

Lemma deregister_absent W st target symbol :
  handles st target !! symbol = None →
  ∃ msg, deregister W target symbol st = (Ok tt, emit (ConsoleWarn msg) st).
Proof.
  unfold handles. intros Habsent.
  destruct (ledger st target) as [entry|] eqn:Hledger.
  - exists (MsgNoEarlyListener target symbol).
    by apply deregister_unknown_symbol with entry.
  - exists (MsgNoListener target symbol). by apply deregister_untracked.
Qed.

(** C6. [deregister] with a target that has no ledger, or with a symbol
    that the target's ledger does not hold (never issued, or released
    before), returns normally; all it does is to print one warning: it
    calls nothing on any target and leaves the disposed flag, every
    ledger and the symbol supply as they were. *)
Theorem deregister_unknown (W : Targets) (st : State) (target symbol : nat) :
  handles st target !! symbol = None →
  ∃ msg st',
    deregister W target symbol st = (Ok tt, st') ∧
    since st st' = [ConsoleWarn msg] ∧
    detached (since st st') = [] ∧
    registry st' = registry st ∧
    symbols st' = symbols st.
Proof.
  intros Habsent. destruct (deregister_absent W st target symbol Habsent) as (msg & Hrun).
  exists msg, (emit (ConsoleWarn msg) st).
  rewrite emit_emits, since_emits. done.
Qed.

Lemma deregister_unknown_witness :
  ∃ msg st',
    deregister calm 7 5 (run calm [OpRegister 7 "a" 1 OptUndefined] new_manager) = (Ok tt, st') ∧
    since (run calm [OpRegister 7 "a" 1 OptUndefined] new_manager) st' = [ConsoleWarn msg] ∧
    detached (since (run calm [OpRegister 7 "a" 1 OptUndefined] new_manager) st') = [] ∧
    registry st' = registry (run calm [OpRegister 7 "a" 1 OptUndefined] new_manager) ∧
    symbols st' = symbols (run calm [OpRegister 7 "a" 1 OptUndefined] new_manager).
Proof. apply (deregister_unknown calm); reflexivity. Defined.

(** ** Registering on a disposed manager *)

(** C9. On a manager left by a [dispose] call that ran the disposal
    body, [register] still works when the target accepts the listener:
    it calls [addEventListener], stores a new ledger for the target and
    returns the next symbol; the disposed flag stays set, so every later
    [dispose] returns without calling [removeEventListener] and without
    touching that ledger. *)
Theorem register_after_dispose (W : Targets) (st0 : State)
    (target : nat) (eventName : string) (callback : nat) (options : Options) :
  let st := (dispose W st0).2 in
  let b := mkBinding target eventName callback in
  disposed st0 = false →
  add_outcome W (trace st) b options = None →
  ∃ st1,
    register W target eventName callback options st = (Ok (symbols st), st1) ∧
    since st st1 = [AddEventListener b options] ∧
    events st1 =
      [(target, (DisposableStack.mk false [DeferDispose b],
                 <[symbols st := EarlyDispose b (symbols st)]> ∅))] ∧
    symbols st1 = S (symbols st) ∧
    disposed st1 = true ∧
    ∀ n, dispose_times W n st1 = st1.
Proof.
  intros st b Hd Hadd.
  destruct (dispose_total W st0 Hd) as (es & Hrun).
  assert (Hst : st = mkState true [] (symbols st0) (trace st0 ++ es))
    by (subst st; by rewrite Hrun).
  exists (registered st b options [] ∅).
  assert (Hreg : register W target eventName callback options st =
                 (Ok (symbols st), registered st b options [] ∅)).
  { rewrite register_untracked by (by rewrite Hst). simpl. fold b. by rewrite Hadd. }
  split; [exact Hreg|].
  assert (Hflag : disposed (registered st b options [] ∅) = true) by (by rewrite Hst).
  repeat split.
  - unfold since, registered. simpl. by rewrite drop_app_length.
  - by rewrite Hst.
  - exact Hflag.
  - induction n as [|n IH]; [done|].
    change (dispose_times W (S n) ?s) with (step W OpDispose (dispose_times W n s)).
    rewrite IH. simpl. by rewrite dispose_again.
Qed.

Lemma register_after_dispose_witness :
  ∃ st1,
    register calm 7 "a" 1 OptUndefined (dispose calm new_manager).2 = (Ok 0, st1) ∧
    since (dispose calm new_manager).2 st1 =
      [AddEventListener (mkBinding 7 "a" 1) OptUndefined] ∧
    events st1 =
      [(7, (DisposableStack.mk false [DeferDispose (mkBinding 7 "a" 1)],
            <[0 := EarlyDispose (mkBinding 7 "a" 1) 0]> ∅))] ∧
    symbols st1 = 1 ∧
    disposed st1 = true ∧
    ∀ n, dispose_times calm n st1 = st1.
Proof. apply (register_after_dispose calm new_manager 7 "a" 1 OptUndefined); reflexivity. Defined.

(** ** How one call changes the ledgers *)

Lemma handles_same st st' target :
  events st' = events st → handles st' target = handles st target.
Proof. unfold handles, ledger. by intros ->. Qed.

Lemma ledger_set st st' t0 entry target :
  events st' = JsMap.set t0 entry (events st) →
  ledger st' target = if decide (t0 = target) then Some entry else ledger st target.
Proof.
  unfold ledger. intros ->. destruct (decide (t0 = target)) as [->|Hne].
  - apply get_set_eq.
  - by apply get_set_ne.
Qed.

Lemma ledger_delete st st' t0 target :
  events st' = JsMap.delete t0 (events st) →
  ledger st' target = if decide (t0 = target) then None else ledger st target.
Proof.
  unfold ledger. intros ->. destruct (decide (t0 = target)) as [->|Hne].
  - apply get_delete_eq.
  - by apply get_delete_ne.
Qed.

Lemma handles_set st st' t0 entry target :
  events st' = JsMap.set t0 entry (events st) →
  handles st' target = if decide (t0 = target) then entry.2 else handles st target.
Proof.
  intros Hev. unfold handles. rewrite (ledger_set st st' t0 entry) by done.
  by destruct (decide (t0 = target)).
Qed.

Lemma handles_delete st st' t0 target :
  events st' = JsMap.delete t0 (events st) →
  handles st' target = if decide (t0 = target) then ∅ else handles st target.
Proof.
  intros Hev. unfold handles. rewrite (ledger_delete st st' t0) by done.
  by destruct (decide (t0 = target)).
Qed.

Section Steps.
Variable W : Targets.

Lemma register_change t e c o st :
  ledgers_change (OpRegister t e c o) st (register W t e c o st).2 ∧
  symbols st ≤ symbols (register W t e c o st).2.
Proof.
  destruct (ledger st t) as [[stk m]|] eqn:Hledger.
  - destruct (DisposableStack.ds_disposed stk) eqn:Hd.
    + rewrite (register_spent W t e c o st stk m) by done. split; [by apply change_none|done].
    + rewrite (register_tracked W t e c o st stk m) by done. simpl.
      destruct (add_outcome W (trace st) _ o).
      * split; [|done]. by eapply change_stack.
      * split; [|simpl; lia]. eapply change_register; [done..|].
        unfold handles. rewrite Hledger. done.
  - rewrite register_untracked by done. simpl.
    destruct (add_outcome W (trace st) _ o).
    + split; [by apply change_none|done].
    + split; [|simpl; lia]. eapply change_register; [done..|].
      unfold handles. rewrite Hledger. done.
Qed.

Lemma call_early_change op b s st :
  ledgers_change op st (call_early W (EarlyDispose b s) st).2 ∧
  symbols (call_early W (EarlyDispose b s) st).2 = symbols st.
Proof.
  rewrite call_early_run. cbv zeta.
  destruct (ledger st (bd_target b)) as [[stk m]|] eqn:Hledger.
  - destruct (DisposableStack.ds_disposed stk); [split; [by apply change_none|done]|].
    destruct (decide (size (delete s m) = 0)) as [Hsz|Hsz].
    + split; [|done]. by eapply change_drop.
    + split; [|done]. eapply (change_release _ _ _ (bd_target b) s).
      * unfold handles. rewrite Hledger. simpl. intros Hempty. apply Hsz.
        by rewrite Hempty, map_size_empty.
      * unfold handles. rewrite Hledger. done.
  - split; [by apply change_none|done].
Qed.

Lemma deregister_change t s st :
  ledgers_change (OpDeregister t s) st (deregister W t s st).2 ∧
  symbols (deregister W t s st).2 = symbols st.
Proof.
  destruct (ledger st t) as [[stk m]|] eqn:Hledger.
  - destruct (m !! s) as [[b s']|] eqn:Hs.
    + replace (deregister W t s st) with (call_early W (EarlyDispose b s') st).
      * apply call_early_change.
      * unfold deregister, bind, events_get, gets. unfold ledger in Hledger.
        rewrite Hledger. simpl. by rewrite Hs.
    + rewrite (deregister_unknown_symbol W st t s (stk, m)) by done.
      split; [by apply change_none|done].
  - rewrite deregister_untracked by done. split; [by apply change_none|done].
Qed.

Lemma dispose_change st :
  ledgers_change OpDispose st (dispose W st).2 ∧
  symbols (dispose W st).2 = symbols st.
Proof.
  destruct (disposed st) eqn:Hd.
  - rewrite dispose_again by done. split; [by apply change_none|done].
  - destruct (dispose_total W st Hd) as (es & ->). split; [by apply change_clear|done].
Qed.

Lemma step_change op st :
  ledgers_change op st (step W op st) ∧ symbols st ≤ symbols (step W op st).
Proof.
  destruct op as [t e c o|t s|]; simpl.
  - apply register_change.
  - destruct (deregister_change t s st) as [? ->]. done.
  - destruct (dispose_change st) as [? ->]. done.
Qed.

End Steps.

(** ** A ledger exists exactly while its target has a handle *)

Lemma ledger_iff_live_alt st :
  ledger_iff_live st ↔ ∀ target entry, ledger st target = Some entry → entry.2 ≠ ∅.
Proof.
  unfold ledger_iff_live, handles. split.
  - intros H target entry Hl. specialize (H target). rewrite Hl in H. by apply H.
  - intros H target. destruct (ledger st target) as [entry|] eqn:Hl.
    + split; [intros _; by eapply H | by eauto].
    + split; [by intros [? ?] | done].
Qed.

Lemma ledger_iff_live_change op st st' :
  ledgers_change op st st' → ledger_iff_live st → ledger_iff_live st'.
Proof.
  rewrite !ledger_iff_live_alt. intros Hchange Hinv target entry.
  destruct Hchange as [Hev|t stk0 stk m Hl Hev|t e c o stk _ _ Hev|t s stk Hne Hev|t Hev|Hev].
  - unfold ledger. rewrite Hev. apply Hinv.
  - rewrite (ledger_set st st' t _ target Hev). case_decide; [|apply Hinv].
    intros [= <-]. simpl. by apply (Hinv t (stk0, m)).
  - rewrite (ledger_set st st' t _ target Hev). case_decide; [|apply Hinv].
    intros [= <-]. simpl. apply insert_non_empty.
  - rewrite (ledger_set st st' t _ target Hev). case_decide; [|apply Hinv].
    by intros [= <-].
  - rewrite (ledger_delete st st' t target Hev). case_decide; [done|apply Hinv].
  - unfold ledger. by rewrite Hev.
Qed.

Lemma run_snoc W ops op st : run W (ops ++ [op]) st = step W op (run W ops st).
Proof. unfold run. by rewrite foldl_app. Qed.

Lemma deregister_call_early W st target symbol entry f :
  ledger st target = Some entry →
  entry.2 !! symbol = Some f →
  deregister W target symbol st = call_early W f st.
Proof.
  unfold ledger. intros Hl Hs.
  unfold deregister, bind, events_get, gets. rewrite Hl. by rewrite Hs.
Qed.

(** The stored ledgers are those whose handle map is not empty: this
    holds of a new manager and is kept by every call; [register] on an
    untracked target creates its ledger, and [deregister] with the only
    handle of a ledger deletes it. *)
Lemma ledger_iff_live_invariant (W : Targets) :
  ledger_iff_live new_manager ∧
  (∀ op st, ledger_iff_live st → ledger_iff_live (step W op st)) ∧
  (∀ ops, ledger_iff_live (run W ops new_manager)) ∧
  (∀ st t e c o h st',
     ledger st t = None →
     register W t e c o st = (Ok h, st') →
     ledger st' t =
       Some (DisposableStack.mk false [DeferDispose (mkBinding t e c)],
             <[h := EarlyDispose (mkBinding t e c) h]> ∅)) ∧
  (∀ st t h b stk m,
     ledger st t = Some (stk, m) →
     DisposableStack.ds_disposed stk = false →
     m !! h = Some (EarlyDispose b h) →
     bd_target b = t →
     delete h m = ∅ →
     ∃ st', deregister W t h st = (Ok tt, st') ∧ ledger st' t = None).
Proof.
  assert (Hnew : ledger_iff_live new_manager).
  { apply ledger_iff_live_alt. intros target entry. by unfold ledger. }
  assert (Hstep : ∀ op st, ledger_iff_live st → ledger_iff_live (step W op st)).
  { intros op st. apply ledger_iff_live_change with op, step_change. }
  split; [exact Hnew|]. split; [exact Hstep|]. split; [|split].
  - induction ops as [|op ops IH] using rev_ind; [exact Hnew|].
    rewrite run_snoc. by apply Hstep.
  - intros st t e c o h st' Hl. rewrite register_untracked by done. simpl.
    destruct (add_outcome W (trace st) _ o); [done|].
    intros [= <- <-]. unfold ledger, registered. simpl. apply get_set_eq.
  - intros st t h b stk m Hl Hlive Hh Ht Hlast.
    rewrite (deregister_call_early W st t h (stk, m) (EarlyDispose b h)) by done.
    rewrite call_early_run. cbv zeta. rewrite Ht, Hl, Hlive.
    rewrite decide_True by (by rewrite Hlast, map_size_empty).
    eexists. split; [done|]. unfold ledger. simpl. apply get_delete_eq.
Qed.

(** ** Symbols stay with the target they were issued for *)

(** A call adds at most the next symbol, and only to the ledger of the
    target being registered. *)
Lemma handles_change op st st' target symbol f :
  ledgers_change op st st' →
  handles st' target !! symbol = Some f →
  handles st target !! symbol = Some f ∨
  (symbol = symbols st ∧ ∃ e c o, op = OpRegister target e c o).
Proof.
  intros Hchange.
  destruct Hchange as [Hev|t stk0 stk m Hl Hev|t e c o stk Hop _ Hev|t s stk Hne Hev|t Hev|Hev].
  - rewrite (handles_same st st') by done. auto.
  - rewrite (handles_set st st' t _ target Hev). case_decide as Ht; [|auto].
    subst t. simpl. unfold handles. rewrite Hl. auto.
  - rewrite (handles_set st st' t _ target Hev). case_decide as Ht; [|auto].
    subst t. simpl. rewrite lookup_insert. case_decide as Hs; [|auto].
    subst symbol. right. eauto.
  - rewrite (handles_set st st' t _ target Hev). case_decide as Ht; [|auto].
    subst t. simpl. rewrite lookup_delete. case_decide; [done|auto].
  - rewrite (handles_delete st st' t target Hev). case_decide; [done|auto].
  - by rewrite handles_no_ledgers.
Qed.

Lemma handles_issued_step W op st : handles_issued st → handles_issued (step W op st).
Proof.
  intros Hinv target symbol [f Hf].
  destruct (step_change W op st) as [Hchange Hmono].
  destruct (handles_change op st _ target symbol f Hchange Hf) as [Hold|[-> _]].
  - specialize (Hinv target symbol (mk_is_Some _ _ Hold)). lia.
  - destruct Hchange as [Hev|t stk0 stk m Hl Hev|t e c o stk Hop Hsym Hev|t s stk Hne Hev|t Hev|Hev];
      try (rewrite Hsym; lia).
    + rewrite (handles_same st _) in Hf by done.
      specialize (Hinv target _ (mk_is_Some _ _ Hf)). lia.
    + rewrite (handles_set st _ t _ target Hev) in Hf.
      case_decide as Ht; [subst t; simpl in Hf;
        assert (handles st target = m) as <- by (unfold handles; by rewrite Hl)|];
        specialize (Hinv target _ (mk_is_Some _ _ Hf)); lia.
    + rewrite (handles_set st _ t _ target Hev) in Hf.
      case_decide as Ht; [subst t; simpl in Hf; apply lookup_delete_Some in Hf as [_ Hf]|];
        specialize (Hinv target _ (mk_is_Some _ _ Hf)); lia.
    + rewrite (handles_delete st _ t target Hev) in Hf.
      case_decide as Ht; [done|].
      specialize (Hinv target _ (mk_is_Some _ _ Hf)); lia.
    + by rewrite handles_no_ledgers in Hf.
Qed.

Lemma handles_issued_run W ops : handles_issued (run W ops new_manager).
Proof.
  induction ops as [|op ops IH] using rev_ind.
  - intros target symbol [f Hf]. by rewrite handles_no_ledgers in Hf.
  - rewrite run_snoc. by apply handles_issued_step.
Qed.

(** A symbol that no ledger but the one of [owner] holds stays so. *)
Lemma foreign_symbol_step W op st owner h :
  h < symbols st →
  (∀ target, target ≠ owner → handles st target !! h = None) →
  h < symbols (step W op st) ∧
  (∀ target, target ≠ owner → handles (step W op st) target !! h = None).
Proof.
  intros Hlt Hforeign. destruct (step_change W op st) as [Hchange Hmono].
  split; [lia|]. intros target Hne.
  destruct (handles (step W op st) target !! h) as [f|] eqn:Hf; [|done].
  destruct (handles_change op st _ target h f Hchange Hf) as [Hold|[-> _]].
  - by rewrite Hforeign in Hold.
  - lia.
Qed.

Lemma foreign_symbol_run W ops st owner h :
  h < symbols st →
  (∀ target, target ≠ owner → handles st target !! h = None) →
  ∀ target, target ≠ owner → handles (run W ops st) target !! h = None.
Proof.
  intros Hlt Hforeign.
  cut (h < symbols (run W ops st) ∧
       ∀ target, target ≠ owner → handles (run W ops st) target !! h = None).
  { by intros [_ ?]. }
  induction ops as [|op ops IH] using rev_ind; [done|].
  rewrite run_snoc. destruct IH as [? ?]. by apply foreign_symbol_step.
Qed.

(** C10. The symbol is looked up in the ledger of the target given to
    [deregister] only.  When [register] on [t1] has returned [h], then
    after any further calls, [deregister] with another target [t2] and
    [h] returns normally and only prints a warning: nothing is called on
    any target, the ledgers are unchanged, and [t1] keeps the handles it
    had (among them [h], if it was still live). *)
Theorem deregister_other_target (W : Targets) (st0 st1 : State)
    (t1 t2 : nat) (e : string) (c : nat) (o : Options) (h : nat) (ops : list Op) :
  handles_issued st0 →
  register W t1 e c o st0 = (Ok h, st1) →
  t2 ≠ t1 →
  let st := run W ops st1 in
  ∃ msg st',
    deregister W t2 h st = (Ok tt, st') ∧
    since st st' = [ConsoleWarn msg] ∧
    detached (since st st') = [] ∧
    registry st' = registry st ∧
    handles st' t1 = handles st t1.
Proof.
  intros Hissued Hreg Hne st.
  assert (Hstep : st1 = step W (OpRegister t1 e c o) st0) by (simpl; by rewrite Hreg).
  assert (Hh : h = symbols st0 ∧ symbols st1 = S (symbols st0)).
  { revert Hreg. destruct (ledger st0 t1) as [[stk m]|] eqn:Hl.
    - destruct (DisposableStack.ds_disposed stk) eqn:Hd.
      + by rewrite (register_spent W t1 e c o st0 stk m).
      + rewrite (register_tracked W t1 e c o st0 stk m) by done. simpl.
        destruct (add_outcome W (trace st0) _ o); [done|]. by intros [= <- <-].
    - rewrite register_untracked by done. simpl.
      destruct (add_outcome W (trace st0) _ o); [done|]. by intros [= <- <-]. }
  destruct Hh as [-> Hsym].
  assert (Hforeign : ∀ target, target ≠ t1 → handles st1 target !! symbols st0 = None).
  { intros target Htarget.
    destruct (handles st1 target !! symbols st0) as [f|] eqn:Hf; [|done].
    destruct (step_change W (OpRegister t1 e c o) st0) as [Hchange _].
    rewrite <- Hstep in Hchange.
    destruct (handles_change _ st0 st1 target _ f Hchange Hf) as [Hold|[_ (e' & c' & o' & Hop)]].
    - specialize (Hissued target _ (mk_is_Some _ _ Hold)). lia.
    - congruence. }
  assert (Habsent : handles st t2 !! symbols st0 = None).
  { apply (foreign_symbol_run W ops st1 t1); [lia|done..]. }
  destruct (deregister_absent W st t2 (symbols st0) Habsent) as (msg & Hrun).
  exists msg, (emit (ConsoleWarn msg) st).
  rewrite emit_emits, since_emits. done.
Qed.

Lemma deregister_other_target_witness :
  ∃ msg st',
    deregister calm 8 0 (run calm [OpRegister 8 "b" 2 OptUndefined]
                           (registered new_manager (mkBinding 7 "a" 1) OptUndefined [] ∅))
      = (Ok tt, st') ∧
    since (run calm [OpRegister 8 "b" 2 OptUndefined]
             (registered new_manager (mkBinding 7 "a" 1) OptUndefined [] ∅)) st'
      = [ConsoleWarn msg] ∧
    detached (since (run calm [OpRegister 8 "b" 2 OptUndefined]
                       (registered new_manager (mkBinding 7 "a" 1) OptUndefined [] ∅)) st') = [] ∧
    registry st' = registry (run calm [OpRegister 8 "b" 2 OptUndefined]
                               (registered new_manager (mkBinding 7 "a" 1) OptUndefined [] ∅)) ∧
    handles st' 7 = handles (run calm [OpRegister 8 "b" 2 OptUndefined]
                               (registered new_manager (mkBinding 7 "a" 1) OptUndefined [] ∅)) 7.
Proof.
  apply (deregister_other_target calm new_manager _ 7 8 "a" 1 OptUndefined 0
           [OpRegister 8 "b" 2 OptUndefined]).
  - apply (handles_issued_run calm []).
  - reflexivity.
  - lia.
Defined.

(** ** A register call whose attach throws *)

Lemma register_failure_untracked W t e c o st x st' :
  ledger st t = None →
  register W t e c o st = (Throw x, st') →
  registry st' = registry st ∧ symbols st' = symbols st ∧
  since st st' = [AddEventListener (mkBinding t e c) o].
Proof.
  intros Hl. rewrite register_untracked by done. simpl.
  destruct (add_outcome W (trace st) _ o); [|done].
  intros [= <- <-]. rewrite emit_emits, since_emits. done.
Qed.

Lemma register_failure_tracked W t e c o st stk m x :
  ledger st t = Some (stk, m) →
  DisposableStack.ds_disposed stk = false →
  add_outcome W (trace st) (mkBinding t e c) o = Some x →
  ∃ st', register W t e c o st = (Throw x, st') ∧
         ledger st' t = Some (DisposableStack.spent, m).
Proof.
  intros Hl Hlive Hadd. rewrite (register_tracked W t e c o st stk m) by done.
  simpl. rewrite Hadd. eexists. split; [done|].
  unfold ledger. simpl. apply get_set_eq.
Qed.

(** C2, where the code departs from it. Listener 1 is registered on
    target 7; then [register] is called for listener 2, which the target
    refuses.  The call throws what the target threw, but line 92 has
    already moved the target's stack out of the stored tuple: the
    ledger is left with a disposed, empty stack.  From then on bulk
    disposal detaches nothing, and [deregister] and [register] on that
    target throw a ReferenceError. *)
Theorem register_failure_spends_ledger :
  let W := rejecting 2 in
  let st := run W [OpRegister 7 "a" 1 OptUndefined] new_manager in
  let st' := (register W 7 "b" 2 OptUndefined st).2 in
  (register W 7 "b" 2 OptUndefined st).1 = Throw (JsError "rejected") ∧
  release_sequence st 7 = [DeferDispose (mkBinding 7 "a" 1)] ∧
  ledger st' 7 =
    Some (DisposableStack.spent, <[0 := EarlyDispose (mkBinding 7 "a" 1) 0]> ∅) ∧
  ¬ failed_register_keeps_registry W st 7 "b" 2 OptUndefined ∧
  detached (since st' (dispose W st').2) = [] ∧
  (deregister W 7 0 st').1 = Throw JsReferenceError ∧
  (register W 7 "c" 3 OptUndefined st').1 = Throw JsReferenceError.
Proof.
  cbv zeta. repeat split; try by vm_compute.
  intros Hclaim.
  specialize (Hclaim (JsError "rejected")
                (register (rejecting 2) 7 "b" 2 OptUndefined
                   (run (rejecting 2) [OpRegister 7 "a" 1 OptUndefined] new_manager)).2).
  assert (Hneq : registry (register (rejecting 2) 7 "b" 2 OptUndefined
                   (run (rejecting 2) [OpRegister 7 "a" 1 OptUndefined] new_manager)).2
                 ≠ registry (run (rejecting 2) [OpRegister 7 "a" 1 OptUndefined] new_manager)).
  { vm_compute. discriminate. }
  apply Hneq, Hclaim. by vm_compute.
Qed.

(** ** Releasing one binding *)

Lemma keys_delete {V} (k : nat) (m : list (nat * V)) :
  JsMap.keys (JsMap.delete k m) = filter (λ k', k' ≠ k) (JsMap.keys m).
Proof.
  induction m as [|[k0 v0] m IH]; [done|]. simpl.
  destruct (decide (k0 = k)) as [->|Hk].
  - rewrite filter_cons_False by (intros ?; done). exact IH.
  - rewrite filter_cons_True by done. simpl. by rewrite <- IH.
Qed.

Lemma keys_unique_delete st st' t :
  events st' = JsMap.delete t (events st) → keys_unique st → keys_unique st'.
Proof. unfold keys_unique. intros ->. rewrite keys_delete. apply NoDup_filter. Qed.

Lemma keys_unique_set st st' t entry :
  events st' = JsMap.set t entry (events st) →
  is_Some (ledger st t) → keys_unique st → keys_unique st'.
Proof.
  unfold keys_unique, ledger. intros -> [entry0 Hl].
  rewrite keys_set_tracked; [done|]. by eapply get_Some_keys.
Qed.

(** Replacing a live stack by one with the same callbacks does not
    change what bulk disposal will detach. *)
Lemma scheduled_set_same ev t stk m m' :
  JsMap.get t ev = Some (stk, m) →
  DisposableStack.ds_disposed stk = false →
  scheduled (JsMap.set t (DisposableStack.mk false (DisposableStack.ds_resources stk), m') ev)
  = scheduled ev.
Proof.
  intros Hget Hlive. induction ev as [|[k [stk0 m0]] ev IH]; [done|].
  simpl in *. destruct (decide (k = t)) as [->|Hk].
  - injection Hget as -> ->. simpl. by rewrite Hlive.
  - simpl. by rewrite IH.
Qed.

Lemma scheduled_elem ev t stk m b :
  JsMap.get t ev = Some (stk, m) →
  DisposableStack.ds_disposed stk = false →
  DeferDispose b ∈ DisposableStack.ds_resources stk →
  b ∈ scheduled ev.
Proof.
  intros Hget Hlive Hin. induction ev as [|[k [stk0 m0]] ev IH]; [done|].
  simpl in *. apply elem_of_app. destruct (decide (k = t)) as [->|Hk].
  - injection Hget as -> ->. left. rewrite Hlive.
    apply (list_elem_of_fmap_2 deferred_binding _ (DeferDispose b)).
    apply list_elem_of_In. rewrite <- in_rev. by apply list_elem_of_In.
  - right. by apply IH.
Qed.

(** What bulk disposal detaches, whatever the targets do. *)
Lemma dispose_detaches W st :
  keys_unique st →
  disposed st = false →
  detached (since st (dispose W st).2) = scheduled (events st).
Proof.
  intros Hnd Hd. rewrite dispose_run by done. unfold since. simpl.
  rewrite drop_app_length, detached_app, detached_sweep_effects. simpl.
  by rewrite app_nil_r.
Qed.

(** C1, as the code has it. [deregister] with a live handle [h] of
    [target] returns normally, detaches the binding of [h] once and
    removes [h] from the target's handle map.  The release sequence is
    not edited: when [h] was the last handle the whole ledger is
    dropped, so bulk disposal has nothing left to detach for that
    ledger; while other handles remain, the sequence is kept as it was
    and a [dispose] call on the not yet disposed manager detaches the
    binding of [h] once more. *)
Theorem deregister_releases (W : Targets) (st : State) (target h : nat)
    (b : Binding) (stk : DisposableStack.t) (m : gmap nat EarlyEventDispose) :
  keys_unique st →
  ledger st target = Some (stk, m) →
  DisposableStack.ds_disposed stk = false →
  m !! h = Some (EarlyDispose b h) →
  bd_target b = target →
  ∃ st1,
    deregister W target h st = (Ok tt, st1) ∧
    detached (since st st1) = [b] ∧
    handles st1 target = delete h m ∧
    handles st1 target !! h = None ∧
    (delete h m = ∅ →
       ledger st1 target = None ∧
       events st1 = JsMap.delete target (events st)) ∧
    (delete h m ≠ ∅ →
       release_sequence st1 target = DisposableStack.ds_resources stk ∧
       scheduled (events st1) = scheduled (events st)) ∧
    (disposed st = false →
       detached (since st1 (dispose W st1).2) = scheduled (events st1)) ∧
    (disposed st = false → delete h m ≠ ∅ →
       DeferDispose b ∈ DisposableStack.ds_resources stk →
       b ∈ detached (since st1 (dispose W st1).2)).
Proof.
  intros Hnd Hl Hlive Hh Ht.
  rewrite (deregister_call_early W st target h (stk, m) (EarlyDispose b h)) by done.
  rewrite call_early_run. cbv zeta. rewrite Ht, Hl, Hlive.
  assert (Hdet : detached (since st (early_detached W st b)) = [b]).
  { unfold early_detached. rewrite since_emits. cbn [detached].
    by rewrite detached_detach_effects. }
  destruct (decide (size (delete h m) = 0)) as [Hsz|Hsz].
  - apply map_size_empty_iff in Hsz.
    set (st1 := with_events _ _).
    assert (Hev : events st1 = JsMap.delete target (events st)) by done.
    assert (Hnone : ledger st1 target = None).
    { rewrite (ledger_delete st st1 target target Hev). by rewrite decide_True. }
    assert (Hhandles : handles st1 target = delete h m).
    { unfold handles. by rewrite Hnone, Hsz. }
    exists st1. repeat split; try done.
    + by rewrite Hhandles, lookup_delete_eq.
    + intros Hd. apply dispose_detaches; [|done].
      by apply (keys_unique_delete st st1 target).
  - assert (Hne : delete h m ≠ ∅) by (by rewrite <- map_size_empty_iff).
    set (st1 := with_events _ _).
    assert (Hev : events st1 =
                  JsMap.set target
                    (DisposableStack.mk false (DisposableStack.ds_resources stk),
                     delete h m) (events st)) by done.
    assert (Hl1 : ledger st1 target =
                  Some (DisposableStack.mk false (DisposableStack.ds_resources stk),
                        delete h m)).
    { rewrite (ledger_set st st1 target _ target Hev). by rewrite decide_True. }
    assert (Hhandles : handles st1 target = delete h m).
    { unfold handles. by rewrite Hl1. }
    assert (Hsched : scheduled (events st1) = scheduled (events st)).
    { rewrite Hev. by apply scheduled_set_same with m. }
    assert (Hdisp : disposed st = false →
                    detached (since st1 (dispose W st1).2) = scheduled (events st1)).
    { intros Hd. apply dispose_detaches; [|done].
      apply (keys_unique_set st st1 target _ Hev); [by rewrite Hl|done]. }
    exists st1. repeat split; try done.
    + by rewrite Hhandles, lookup_delete_eq.
    + unfold release_sequence. by rewrite Hl1.
    + intros Hd _ Hin. rewrite Hdisp, Hsched by done.
      by apply scheduled_elem with target stk m.
Qed.

Lemma deregister_releases_witness :
  ∃ st1,
    deregister calm 7 0 two_listeners = (Ok tt, st1) ∧
    detached (since two_listeners st1) = [listener_A] ∧
    handles st1 7 = delete 0 (handles two_listeners 7) ∧
    handles st1 7 !! 0 = None ∧
    (delete 0 (handles two_listeners 7) = ∅ →
       ledger st1 7 = None ∧
       events st1 = JsMap.delete 7 (events two_listeners)) ∧
    (delete 0 (handles two_listeners 7) ≠ ∅ →
       release_sequence st1 7 = [DeferDispose listener_A; DeferDispose listener_B] ∧
       scheduled (events st1) = scheduled (events two_listeners)) ∧
    (disposed two_listeners = false →
       detached (since st1 (dispose calm st1).2) = scheduled (events st1)) ∧
    (disposed two_listeners = false → delete 0 (handles two_listeners 7) ≠ ∅ →
       DeferDispose listener_A ∈ [DeferDispose listener_A; DeferDispose listener_B] →
       listener_A ∈ detached (since st1 (dispose calm st1).2)).
Proof.
  apply (deregister_releases calm two_listeners 7 0 listener_A
           (DisposableStack.mk false [DeferDispose listener_A; DeferDispose listener_B])
           (handles two_listeners 7)).
  - apply NoDup_singleton.
  - reflexivity.
  - reflexivity.
  - reflexivity.
  - reflexivity.
Defined.

(** C1, as stated, fails when the target keeps another handle: listeners
    A and B are registered on target 7 and A is deregistered; its
    release action is still in the release sequence, and bulk disposal
    calls [removeEventListener] for A a second time. *)
Lemma deregister_leaves_release_action : ¬ released_for_good calm two_listeners 7 0.
Proof.
  intros Hclaim.
  destruct (Hclaim listener_A (deregister calm 7 0 two_listeners).2)
    as (_ & Hseq & Hdet); [reflexivity|by vm_compute|].
  apply Hdet. vm_compute. apply list_elem_of_further, list_elem_of_here.
Qed.

(** ** Bulk disposal runs in reverse registration order *)

Lemma scheduled_app ev1 ev2 : scheduled (ev1 ++ ev2) = scheduled ev1 ++ scheduled ev2.
Proof.
  induction ev1 as [|[k [stk m]] ev1 IH]; [done|].
  simpl. by rewrite IH, app_assoc.
Qed.

Lemma deferred_binding_rev bs :
  deferred_binding <$> rev (DeferDispose <$> bs) = rev bs.
Proof.
  induction bs as [|b bs IH]; [done|].
  cbn [fmap list_fmap rev]. by rewrite fmap_app, IH.
Qed.

Section RegisterAll.
Variable W : Targets.

Lemma register_all_tracked t regs : ∀ st stk m hs st',
  ledger st t = Some (stk, m) →
  DisposableStack.ds_disposed stk = false →
  register_all W t regs st = (Ok hs, st') →
  disposed st' = disposed st ∧
  ∃ m', events st' =
        JsMap.set t
          (DisposableStack.mk false
             (DisposableStack.ds_resources stk ++ (DeferDispose <$> (binding_of t <$> regs))),
           m') (events st).
Proof.
  induction regs as [|[[e c] o] regs IH]; intros st stk m hs st' Hl Hlive.
  - simpl. intros [= <- <-]. split; [done|]. exists m. rewrite app_nil_r.
    destruct stk as [d rs]. simpl in *. subst d.
    symmetry. by apply set_get_id.
  - cbn [register_all]. unfold bind at 1.
    rewrite (register_tracked W t e c o st stk m) by done. cbv zeta.
    destruct (add_outcome W (trace st) _ o); [done|].
    set (st1 := registered _ _ _ _ _).
    unfold bind at 1.
    destruct (register_all W t regs st1) as [[hs'|x] st2] eqn:Hrest; [|done].
    intros [= <- <-].
    destruct (IH st1 (DisposableStack.mk false
                        (DisposableStack.ds_resources stk ++ [DeferDispose (mkBinding t e c)]))
                (<[symbols st := EarlyDispose (mkBinding t e c) (symbols st)]> m) hs' st2)
      as (Hd & m' & Hev); [|done|done|].
    { unfold ledger, st1, registered. simpl. apply get_set_eq. }
    split; [by rewrite Hd|]. exists m'. rewrite Hev. subst st1. unfold registered. simpl.
    rewrite set_set. cbn [fmap list_fmap binding_of fst snd].
    by rewrite <- app_assoc.
Qed.

Lemma register_all_untracked t regs st hs st' :
  ledger st t = None →
  register_all W t regs st = (Ok hs, st') →
  disposed st' = disposed st ∧
  (regs = [] ∧ events st' = events st ∨
   ∃ m', events st' =
         events st ++
         [(t, (DisposableStack.mk false (DeferDispose <$> (binding_of t <$> regs)), m'))]).
Proof.
  intros Hl. destruct regs as [|[[e c] o] regs].
  - simpl. intros [= <- <-]. auto.
  - cbn [register_all]. unfold bind at 1.
    rewrite register_untracked by done. cbv zeta.
    destruct (add_outcome W (trace st) _ o); [done|].
    set (st1 := registered _ _ _ _ _).
    unfold bind at 1.
    destruct (register_all W t regs st1) as [[hs'|x] st2] eqn:Hrest; [|done].
    intros [= <- <-].
    destruct (register_all_tracked t regs st1
                (DisposableStack.mk false [DeferDispose (mkBinding t e c)])
                (<[symbols st := EarlyDispose (mkBinding t e c) (symbols st)]> ∅) hs' st2)
      as (Hd & m' & Hev); [|done|done|].
    { unfold ledger, st1, registered. simpl. apply get_set_eq. }
    split; [by rewrite Hd|]. right. exists m'. rewrite Hev.
    subst st1. unfold registered. simpl. rewrite set_set.
    by rewrite set_untracked.
Qed.

End RegisterAll.

(** C3. Listeners are registered one after the other on a target that
    the manager does not track yet, every call returning normally; then
    [dispose] is called on the manager, which is not yet disposed.  The
    call returns normally, and the [removeEventListener] calls it makes
    are, after those scheduled by the ledgers of the other targets, one
    call per registered listener, in the reverse of the registration
    order. *)
Theorem dispose_reverse_order (W : Targets) (st0 st : State) (target : nat)
    (regs : list (string * nat * Options)) (hs : list nat) :
  keys_unique st0 →
  disposed st0 = false →
  ledger st0 target = None →
  register_all W target regs st0 = (Ok hs, st) →
  ∃ st',
    dispose W st = (Ok tt, st') ∧
    detached (since st st') =
      scheduled (events st0) ++ rev (binding_of target <$> regs).
Proof.
  intros Hnd Hd Hl Hregs.
  destruct (register_all_untracked W target regs st0 hs st Hl Hregs)
    as (Hd' & [[-> Hev]|[m' Hev]]).
  - exists (dispose W st).2. split.
    + rewrite dispose_run; [done| |congruence]. unfold keys_unique. by rewrite Hev.
    + rewrite dispose_detaches; [|unfold keys_unique; by rewrite Hev|congruence].
      rewrite Hev. simpl. by rewrite app_nil_r.
  - assert (Hnd' : keys_unique st).
    { unfold keys_unique, JsMap.keys. rewrite Hev, fmap_app. simpl.
      apply NoDup_app. split; [done|]. split; [|apply NoDup_singleton].
      intros k Hk Hin. apply list_elem_of_singleton in Hin as ->.
      by apply (get_None_keys target (events st0)). }
    exists (dispose W st).2. split.
    + rewrite dispose_run; [done|done|congruence].
    + rewrite dispose_detaches; [|done|congruence].
      rewrite Hev, scheduled_app. simpl. rewrite app_nil_r. f_equal.
      apply deferred_binding_rev.
Qed.

Lemma dispose_reverse_order_witness :
  ∃ st',
    dispose calm
      (run calm [OpRegister 7 "a" 1 OptUndefined; OpRegister 7 "b" 2 OptUndefined;
                 OpRegister 7 "c" 3 OptUndefined] new_manager) = (Ok tt, st') ∧
    detached
      (since (run calm [OpRegister 7 "a" 1 OptUndefined; OpRegister 7 "b" 2 OptUndefined;
                        OpRegister 7 "c" 3 OptUndefined] new_manager) st')
    = [listener_C; listener_B; listener_A].
Proof.
  apply (dispose_reverse_order calm new_manager _ 7
           [("a", 1, OptUndefined); ("b", 2, OptUndefined); ("c", 3, OptUndefined)]
           [0; 1; 2]).
  - apply NoDup_nil_2.
  - reflexivity.
  - reflexivity.
  - reflexivity.
Defined.

(** ** Failures of [removeEventListener] *)

Lemma deregister_result W st target symbol :
  (deregister W target symbol st).1 = deregister_outcome st target symbol.
Proof.
  unfold deregister_outcome.
  destruct (ledger st target) as [entry|] eqn:Hl.
  - destruct (entry.2 !! symbol) as [[b s]|] eqn:Hs.
    + rewrite (deregister_call_early W st target symbol entry (EarlyDispose b s)) by done.
      rewrite call_early_run. cbv zeta.
      destruct (ledger st (bd_target b)) as [[stk m]|]; [|done]. simpl.
      destruct (DisposableStack.ds_disposed stk); [done|].
      by destruct (decide (size (delete s m) = 0)).
    + by rewrite (deregister_unknown_symbol W st target symbol entry).
  - by rewrite deregister_untracked.
Qed.

Lemma deregister_returns_live W st target symbol :
  stacks_live st → (deregister W target symbol st).1 = Ok tt.
Proof.
  intros Hlive. rewrite deregister_result. unfold deregister_outcome.
  destruct (ledger st target) as [entry|]; [|done].
  destruct (entry.2 !! symbol) as [[b s]|]; [|done].
  destruct (ledger st (bd_target b)) as [entry'|] eqn:Hl; [|done].
  by rewrite (Hlive _ _ Hl).
Qed.




(** Without a refused listener no stack is ever left moved out, so that
    [deregister] never throws. *)
Lemma stacks_live_step W op st :
  accepting W → stacks_live st → stacks_live (step W op st).
Proof.
  intros Hacc Hlive.
  assert (Hset : ∀ st' t stk m,
            events st' = JsMap.set t (stk, m) (events st) →
            DisposableStack.ds_disposed stk = false → stacks_live st').
  { intros st' t stk m Hev Hstk target entry.
    rewrite (ledger_set st st' t _ target Hev). case_decide; [|apply Hlive].
    by intros [= <-]. }
  assert (Hdel : ∀ st' t, events st' = JsMap.delete t (events st) → stacks_live st').
  { intros st' t Hev target entry.
    rewrite (ledger_delete st st' t target Hev). case_decide; [done|apply Hlive]. }
  destruct op as [t e c o|t s|]; simpl.
  - destruct (ledger st t) as [[stk m]|] eqn:Hl.
    + rewrite (register_tracked W t e c o st stk m); [|done|by apply (Hlive t (stk, m))].
      simpl. rewrite Hacc. simpl. by eapply Hset.
    + rewrite register_untracked by done. simpl. rewrite Hacc. simpl. by eapply Hset.
  - destruct (ledger st t) as [entry|] eqn:Hl.
    + destruct (entry.2 !! s) as [[b s']|] eqn:Hs.
      * rewrite (deregister_call_early W st t s entry (EarlyDispose b s')) by done.
        rewrite call_early_run. cbv zeta.
        destruct (ledger st (bd_target b)) as [[stk m]|] eqn:Hb; [|exact Hlive].
        pose proof (Hlive _ _ Hb) as Hstk. simpl in Hstk. rewrite Hstk.
        destruct (decide (size (delete s' m) = 0)); simpl.
        -- by eapply Hdel.
        -- by eapply Hset.
      * by rewrite (deregister_unknown_symbol W st t s entry).
    + by rewrite deregister_untracked.
  - destruct (disposed st) eqn:Hd.
    + by rewrite dispose_again.
    + destruct (dispose_total W st Hd) as (es & ->). by intros target entry.
Qed.

Lemma stacks_live_run W ops : accepting W → stacks_live (run W ops new_manager).
Proof.
  intros Hacc. induction ops as [|op ops IH] using rev_ind.
  - by intros target entry.
  - rewrite run_snoc. by apply stacks_live_step.
Qed.

(** X9. As long as no target has refused a listener, [deregister]
    returns normally, whatever calls were made before, whatever target
    and symbol it is given and whatever [removeEventListener] does. *)
Lemma deregister_returns W ops target symbol :
  accepting W →
  (deregister W target symbol (run W ops new_manager)).1 = Ok tt.
Proof.
  intros Hacc. apply deregister_returns_live. by apply stacks_live_run.
Qed.

(** ** Reachable states *)

Lemma keys_unique_set_any {V} (k : nat) (v : V) (m : list (nat * V)) :
  NoDup (JsMap.keys m) → NoDup (JsMap.keys (JsMap.set k v m)).
Proof.
  intros Hnd. destruct (decide (k ∈ JsMap.keys m)) as [Hin|Hout].
  - by rewrite keys_set_tracked.
  - rewrite keys_set_untracked by done. apply NoDup_app. split; [done|].
    split; [|apply NoDup_singleton].
    intros k' Hk' Hin. by apply list_elem_of_singleton in Hin as ->.
Qed.

Lemma keys_unique_change op st st' :
  ledgers_change op st st' → keys_unique st → keys_unique st'.
Proof.
  unfold keys_unique. intros Hchange Hnd.
  destruct Hchange as [Hev|t stk0 stk m Hl Hev|t e c o stk _ _ Hev|t s stk Hne Hev|t Hev|Hev];
    rewrite Hev; try (by apply keys_unique_set_any); try done.
  - rewrite keys_delete. by apply NoDup_filter.
  - apply NoDup_nil_2.
Qed.

Lemma keys_unique_run W ops : keys_unique (run W ops new_manager).
Proof.
  induction ops as [|op ops IH] using rev_ind; [apply NoDup_nil_2|].
  rewrite run_snoc. eapply keys_unique_change; [apply step_change|done].
Qed.

Lemma release_sequence_set st st' t entry target :
  events st' = JsMap.set t entry (events st) →
  release_sequence st' target =
  if decide (t = target) then DisposableStack.ds_resources entry.1
  else release_sequence st target.
Proof.
  intros Hev. unfold release_sequence. rewrite (ledger_set st st' t entry) by done.
  by destruct (decide (t = target)).
Qed.

Lemma handles_scheduled_registered st b o rs m :
  ledger st (bd_target b) = None ∧ rs = [] ∧ m = ∅ ∨
  (∃ stk, ledger st (bd_target b) = Some (stk, m) ∧ DisposableStack.ds_resources stk = rs) →
  handles_scheduled st →
  handles_scheduled (registered st b o rs m).
Proof.
  intros Hshape Hinv target h b' s.
  assert (Hev : events (registered st b o rs m) =
                JsMap.set (bd_target b)
                  (DisposableStack.mk false (rs ++ [DeferDispose b]),
                   <[symbols st := EarlyDispose b (symbols st)]> m) (events st)) by done.
  rewrite (handles_set _ _ _ _ target Hev), (release_sequence_set _ _ _ _ target Hev).
  case_decide as Ht; [|apply Hinv]. subst target. cbn [fst snd DisposableStack.ds_resources].
  rewrite lookup_insert. case_decide as Hs.
  - intros [= <- <-]. repeat split; [done|]. apply elem_of_app. right. apply list_elem_of_here.
  - intros Hm. destruct Hshape as [(_ & _ & ->)|(stk & Hl & <-)].
    + by rewrite lookup_empty in Hm.
    + destruct (Hinv (bd_target b) h b' s) as (? & ? & Hin).
      { unfold handles. by rewrite Hl. }
      repeat split; [done..|]. apply elem_of_app. left.
      unfold release_sequence in Hin. by rewrite Hl in Hin.
Qed.

Lemma healthy_step W op st :
  accepting W →
  stacks_live st → handles_scheduled st →
  handles_scheduled (step W op st).
Proof.
  intros Hacc Hlive Hinv.
  destruct op as [t e c o|t s|]; simpl.
  - destruct (ledger st t) as [[stk m]|] eqn:Hl.
    + rewrite (register_tracked W t e c o st stk m); [|done|by apply (Hlive t (stk, m))].
      simpl. rewrite Hacc. simpl. apply handles_scheduled_registered; [|done].
      right. exists stk. done.
    + rewrite register_untracked by done. simpl. rewrite Hacc. simpl.
      apply handles_scheduled_registered; [|done]. by left.
  - destruct (ledger st t) as [[stk m]|] eqn:Hl.
    + destruct (m !! s) as [[b s']|] eqn:Hs.
      * destruct (Hinv t s b s') as (Ht & -> & _).
        { unfold handles. by rewrite Hl. }
        rewrite (deregister_call_early W st t s (stk, m) (EarlyDispose b s)) by done.
        rewrite call_early_run. cbv zeta. rewrite Ht, Hl.
        pose proof (Hlive _ _ Hl) as Hstk. simpl in Hstk. rewrite Hstk.
        destruct (decide (size (delete s m) = 0)); simpl.
        -- set (st1 := with_events _ _). intros target h b' s'.
           assert (Hev : events st1 = JsMap.delete t (events st)) by done.
           unfold release_sequence.
           rewrite (handles_delete st st1 t target Hev), (ledger_delete st st1 t target Hev).
           case_decide; [by rewrite lookup_empty|]. apply Hinv.
        -- set (st1 := with_events _ _). intros target h b' s'.
           assert (Hev : events st1 =
                         JsMap.set t
                           (DisposableStack.mk false (DisposableStack.ds_resources stk),
                            delete s m) (events st)) by done.
           rewrite (handles_set _ _ _ _ target Hev), (release_sequence_set _ _ _ _ target Hev).
           case_decide as Htarget; [|apply Hinv]. subst target. simpl.
           intros Hdel. apply lookup_delete_Some in Hdel as [_ Hm].
           destruct (Hinv t h b' s') as (? & ? & Hin).
           { unfold handles. by rewrite Hl. }
           repeat split; [done..|]. unfold release_sequence in Hin. by rewrite Hl in Hin.
      * by rewrite (deregister_unknown_symbol W st t s (stk, m)).
    + by rewrite deregister_untracked.
  - destruct (disposed st) eqn:Hd.
    + by rewrite dispose_again.
    + destruct (dispose_total W st Hd) as (es & ->).
      intros target h b s. by rewrite handles_no_ledgers.
Qed.

Lemma handles_scheduled_run W ops :
  accepting W → handles_scheduled (run W ops new_manager).
Proof.
  intros Hacc. induction ops as [|op ops IH] using rev_ind.
  - intros target h b s. by rewrite handles_no_ledgers.
  - rewrite run_snoc. apply healthy_step; [done| |done]. by apply stacks_live_run.
Qed.

(** X7. After any calls on targets that accept every listener, bulk
    disposal of the not yet disposed manager detaches the binding of
    every handle that is still live. *)
Lemma live_bindings_detached W ops target h f :
  accepting W →
  let st := run W ops new_manager in
  disposed st = false →
  handles st target !! h = Some f →
  ∃ b, f = EarlyDispose b h ∧ bd_target b = target ∧
       b ∈ detached (since st (dispose W st).2).
Proof.
  intros Hacc st Hd Hf. destruct f as [b s].
  destruct (handles_scheduled_run W ops Hacc target h b s Hf) as (Ht & -> & Hin).
  exists b. repeat split; [done|].
  rewrite dispose_detaches; [|apply keys_unique_run|done].
  unfold release_sequence, ledger in Hin. fold st in Hin.
  destruct (JsMap.get target (events st)) as [[stk m]|] eqn:Hl; [|by apply not_elem_of_nil in Hin].
  apply scheduled_elem with target stk m; [done| |done].
  by apply (stacks_live_run W ops Hacc target (stk, m)).
Qed.

(** ** Symbols that the ledger does not hold *)

(** A symbol that [Symbol()] has not produced yet is in no ledger. *)
Lemma deregister_never_issued W st target symbol :
  handles_issued st →
  symbols st ≤ symbol →
  ∃ msg, deregister W target symbol st = (Ok tt, emit (ConsoleWarn msg) st).
Proof.
  intros Hissued Hle. apply deregister_absent.
  destruct (handles st target !! symbol) as [f|] eqn:Hf; [|done].
  specialize (Hissued target symbol (mk_is_Some _ _ Hf)). lia.
Qed.

(** X8. A handle that was released by [deregister] is no longer in its
    ledger: releasing it again returns normally and only prints a
    warning. *)
Lemma deregister_released_again W st target h b stk m :
  ledger st target = Some (stk, m) →
  DisposableStack.ds_disposed stk = false →
  m !! h = Some (EarlyDispose b h) →
  bd_target b = target →
  ∃ st1 msg,
    deregister W target h st = (Ok tt, st1) ∧
    deregister W target h st1 = (Ok tt, emit (ConsoleWarn msg) st1).
Proof.
  intros Hl Hlive Hh Ht.
  rewrite (deregister_call_early W st target h (stk, m) (EarlyDispose b h)) by done.
  rewrite call_early_run. cbv zeta. rewrite Ht, Hl, Hlive.
  destruct (decide (size (delete h m) = 0)) as [Hsz|Hsz].
  - set (st1 := with_events _ _).
    destruct (deregister_absent W st1 target h) as (msg & Hrun); [|by eauto].
    assert (Hev : events st1 = JsMap.delete target (events st)) by done.
    rewrite (handles_delete st st1 target target Hev). by rewrite decide_True.
  - set (st1 := with_events _ _).
    destruct (deregister_absent W st1 target h) as (msg & Hrun); [|by eauto].
    assert (Hev : events st1 =
                  JsMap.set target
                    (DisposableStack.mk false (DisposableStack.ds_resources stk),
                     delete h m) (events st)) by done.
    rewrite (handles_set st st1 target _ target Hev). rewrite decide_True by done.
    apply lookup_delete_eq.
Qed.

(** ** Maps with keys of any type *)

Section KeyMapFacts.
Context {K : Type} `{EqDecision K} {V : Type}.
Implicit Types (m : list (K * V)) (k : K) (v : V).

Lemma km_get_set_eq k v m : KeyMap.get k (KeyMap.set k v m) = Some v.
Proof.
  induction m as [|[k' v'] m IH]; simpl.
  - by rewrite decide_True.
  - destruct (decide (k' = k)) as [->|Hne]; simpl.
    + by rewrite decide_True.
    + by rewrite decide_False.
Qed.

Lemma km_get_set_ne k k' v m :
  k ≠ k' → KeyMap.get k' (KeyMap.set k v m) = KeyMap.get k' m.
Proof.
  intros Hne. induction m as [|[k0 v0] m IH]; simpl.
  - by rewrite decide_False.
  - destruct (decide (k0 = k)) as [->|Hk]; simpl.
    + by rewrite !decide_False.
    + by rewrite IH.
Qed.

Lemma km_get_delete_eq k m : KeyMap.get k (KeyMap.delete k m) = None.
Proof.
  induction m as [|[k0 v0] m IH]; [done|]; simpl.
  destruct (decide (k0 = k)); [done|]. simpl. by rewrite decide_False.
Qed.

Lemma km_get_delete_ne k k' m :
  k ≠ k' → KeyMap.get k' (KeyMap.delete k m) = KeyMap.get k' m.
Proof.
  intros Hne. induction m as [|[k0 v0] m IH]; [done|]; simpl.
  destruct (decide (k0 = k)) as [->|Hk]; simpl.
  - by rewrite decide_False.
  - by rewrite IH.
Qed.

Lemma km_set_set k v1 v2 m :
  KeyMap.set k v2 (KeyMap.set k v1 m) = KeyMap.set k v2 m.
Proof.
  induction m as [|[k0 v0] m IH]; simpl.
  - by rewrite decide_True.
  - destruct (decide (k0 = k)) as [->|Hk]; simpl.
    + by rewrite decide_True.
    + by rewrite decide_False, IH.
Qed.

Lemma km_delete_set k v m :
  KeyMap.delete k (KeyMap.set k v m) = KeyMap.delete k m.
Proof.
  induction m as [|[k0 v0] m IH]; simpl.
  - by rewrite decide_True.
  - destruct (decide (k0 = k)) as [->|Hk]; simpl.
    + by rewrite decide_True.
    + by rewrite decide_False, IH.
Qed.

Lemma km_set_get_id k v m : KeyMap.get k m = Some v → KeyMap.set k v m = m.
Proof.
  induction m as [|[k0 v0] m IH]; [done|]. simpl.
  destruct (decide (k0 = k)) as [->|Hk].
  - by intros [= ->].
  - intros Hget. by rewrite IH.
Qed.

Lemma km_delete_absent k m : KeyMap.get k m = None → KeyMap.delete k m = m.
Proof.
  induction m as [|[k0 v0] m IH]; [done|]. simpl.
  destruct (decide (k0 = k)); [done|]. intros Hget. by rewrite IH.
Qed.

Lemma km_get_Some_keys k v m : KeyMap.get k m = Some v → k ∈ KeyMap.keys m.
Proof.
  induction m as [|[k0 v0] m IH]; [done|]; simpl.
  destruct (decide (k0 = k)) as [->|Hk]; intros Hget.
  - apply list_elem_of_here.
  - apply list_elem_of_further; auto.
Qed.

Lemma km_get_None_keys k m : k ∉ KeyMap.keys m → KeyMap.get k m = None.
Proof.
  induction m as [|[k0 v0] m IH]; [done|]; simpl.
  rewrite not_elem_of_cons. intros [Hk Hout].
  rewrite decide_False by done. auto.
Qed.

Lemma km_delete_nil k k' m :
  KeyMap.delete k m = [] → k ≠ k' → KeyMap.get k' m = None.
Proof.
  intros Hdel Hne. rewrite <- (km_get_delete_ne k k' m Hne). by rewrite Hdel.
Qed.

Lemma km_keys_delete k m :
  KeyMap.keys (KeyMap.delete k m) = filter (λ k', k' ≠ k) (KeyMap.keys m).
Proof.
  induction m as [|[k0 v0] m IH]; [done|]. simpl.
  destruct (decide (k0 = k)) as [->|Hk].
  - rewrite filter_cons_False by (intros ?; done). exact IH.
  - rewrite filter_cons_True by done. simpl. by rewrite <- IH.
Qed.

Lemma km_keys_set k v m :
  KeyMap.keys (KeyMap.set k v m) =
  if decide (k ∈ KeyMap.keys m) then KeyMap.keys m else KeyMap.keys m ++ [k].
Proof.
  induction m as [|[k0 v0] m IH]; simpl.
  - done.
  - destruct (decide (k0 = k)) as [->|Hk]; simpl.
    + rewrite decide_True; [done|]. apply list_elem_of_here.
    + rewrite IH. destruct (decide (k ∈ KeyMap.keys m)) as [Hin|Hout].
      * rewrite decide_True; [done|]. by apply list_elem_of_further.
      * rewrite decide_False; [done|]. rewrite not_elem_of_cons. split; [congruence|done].
Qed.

Lemma km_NoDup_set k v m :
  NoDup (KeyMap.keys m) → NoDup (KeyMap.keys (KeyMap.set k v m)).
Proof.
  intros Hnd. rewrite km_keys_set. case_decide as Hin; [done|].
  apply NoDup_app. split; [done|]. split; [|apply NoDup_singleton].
  intros k' Hk' Hin'. by apply list_elem_of_singleton in Hin' as ->.
Qed.

Lemma km_NoDup_delete k m :
  NoDup (KeyMap.keys m) → NoDup (KeyMap.keys (KeyMap.delete k m)).
Proof. intros Hnd. rewrite km_keys_delete. by apply NoDup_filter. Qed.

End KeyMapFacts.

(** ** The first version: one call *)

Lemma v1_findIndex_None c l : V1.findIndex c l = None ↔ c ∉ l.
Proof.
  induction l as [|x l IH]; simpl.
  - split; [intros _; apply not_elem_of_nil|done].
  - rewrite not_elem_of_cons. destruct (decide (x = c)) as [->|Hne].
    + split; [done|]. by intros [? _].
    + destruct (V1.findIndex c l); simpl.
      * split; [done|]. intros [_ Hout]. by apply IH in Hout.
      * split; [|done]. intros _. split; [congruence|]. by apply IH.
Qed.

Lemma v1_findIndex_Some c l j :
  V1.findIndex c l = Some j → l !! j = Some c.
Proof.
  revert j; induction l as [|x l IH]; intros j; simpl; [done|].
  destruct (decide (x = c)) as [->|Hne].
  - by intros [= <-].
  - destruct (V1.findIndex c l) as [j'|]; simpl; [|done].
    intros [= <-]. simpl. by apply IH.
Qed.

Lemma v1_findIndex_middle c pre rest :
  c ∉ pre → V1.findIndex c (pre ++ c :: rest) = Some (length pre).
Proof.
  induction pre as [|x pre IH]; simpl.
  - intros _. by rewrite decide_True.
  - rewrite not_elem_of_cons. intros [Hne Hout].
    rewrite decide_False by congruence. by rewrite IH.
Qed.

Lemma v1_set_length {K V} `{EqDecision K} (k : K) (v : V) (m : list (K * V)) :
  length (KeyMap.set k v m) ≠ 0.
Proof.
  destruct m as [|[k' v'] m]; simpl; [done|]. by destruct (decide (k' = k)).
Qed.

Lemma v1_set_not_nil {K V} `{EqDecision K} (k : K) (v : V) (m : list (K * V)) :
  KeyMap.set k v m ≠ [].
Proof.
  destruct m as [|[k' v'] m]; simpl; [done|]. by destruct (decide (k' = k)).
Qed.

Lemma v1_callbacks_get st target eventName targetEvents :
  KeyMap.get target (V1.events st) = Some targetEvents →
  V1.callbacks st target eventName = default [] (KeyMap.get eventName targetEvents).
Proof. unfold V1.callbacks. by intros ->. Qed.

Lemma v1_callbacks_same st st' target eventName :
  KeyMap.get target (V1.events st') = KeyMap.get target (V1.events st) →
  V1.callbacks st' target eventName = V1.callbacks st target eventName.
Proof. unfold V1.callbacks. by intros ->. Qed.

(** Everything a [deregister] call can do. *)
Lemma v1_deregister_cases W target eventName callback st :
  let r := V1.deregister W target eventName callback st in
  let b := mkBinding target eventName callback in
  (∃ error, r.1 = V1.Threw error ∧ V1.events r.2 = V1.events st ∧
            (V1.findIndex callback (V1.callbacks st target eventName) = None →
             r.2 = st ∧
             error = (if KeyMap.get target (V1.events st) is Some _
                      then V1.NoEventForName target eventName
                      else V1.NoEventForTarget target)) ∧
            (is_Some (V1.findIndex callback (V1.callbacks st target eventName)) →
             ∃ x, V1.remove_outcome W (V1.trace st) b = Some x ∧
                  r.2 = V1.emit (V1.CallRemove b) st ∧
                  error = (if instanceof_Error x
                           then V1.DeregisterFailed target x
                           else V1.DeregisterFailedUnknown target))) ∨
  (∃ j, V1.findIndex callback (V1.callbacks st target eventName) = Some j ∧
        V1.remove_outcome W (V1.trace st) b = None ∧
        r.1 = V1.Returned ∧
        V1.trace r.2 = V1.trace st ++ [V1.CallRemove b] ∧
        V1.callbacks r.2 target eventName =
          delete j (V1.callbacks st target eventName) ∧
        (∀ target', target' ≠ target →
           KeyMap.get target' (V1.events r.2) = KeyMap.get target' (V1.events st)) ∧
        (∀ eventName', eventName' ≠ eventName →
           V1.callbacks r.2 target eventName' = V1.callbacks st target eventName')).
Proof.
  cbv zeta. unfold V1.deregister, V1.callbacks.
  destruct (KeyMap.get target (V1.events st)) as [targetEvents|] eqn:Ht.
  2:{ left. eexists. repeat split; try done; by intros [? ?]. }
  destruct (KeyMap.get eventName targetEvents) as [arr|] eqn:He; simpl.
  2:{ left. eexists. repeat split; try done; by intros [? ?]. }
  destruct (V1.findIndex callback arr) as [j|] eqn:Hj.
  2:{ left. eexists. repeat split; try done; by intros [? ?]. }
  destruct (V1.remove_outcome W (V1.trace st) _) as [x|] eqn:Hx.
  { left. eexists. repeat split; try done. intros _. by exists x. }
  right. exists j. split; [done|]. split; [done|].
  destruct (decide (length (delete j arr) = 0)) as [Hlen|Hlen].
  - apply nil_length_inv in Hlen.
    destruct (decide (length (KeyMap.delete eventName targetEvents) = 0)) as [Hlen'|Hlen'].
    + apply nil_length_inv in Hlen'. simpl.
      rewrite km_get_delete_eq. repeat split; try done.
      * intros target' Hne. by apply km_get_delete_ne.
      * intros eventName' Hne. by rewrite (km_delete_nil eventName eventName' targetEvents).
    + simpl. rewrite km_get_set_eq, km_get_delete_eq. repeat split; try done.
      * intros target' Hne. by apply km_get_set_ne.
      * intros eventName' Hne. by rewrite km_get_delete_ne.
  - rewrite decide_False by apply v1_set_length. simpl.
    rewrite km_get_set_eq, km_get_set_eq. repeat split; try done.
    + intros target' Hne. by apply km_get_set_ne.
    + intros eventName' Hne. by rewrite km_get_set_ne.
Qed.

Lemma v1_deregister_events W target eventName callback st target' eventName' :
  length (V1.callbacks (V1.deregister W target eventName callback st).2 target' eventName')
  ≤ length (V1.callbacks st target' eventName').
Proof.
  destruct (v1_deregister_cases W target eventName callback st)
    as [(error & _ & Hev & _)|(j & _ & _ & _ & _ & Hcb & Hother & Hnames)].
  - unfold V1.callbacks. by rewrite Hev.
  - destruct (decide (target' = target)) as [->|Ht].
    + destruct (decide (eventName' = eventName)) as [->|He].
      * rewrite Hcb. clear. generalize (V1.callbacks st target eventName).
        intros l. revert j. induction l as [|x l IH]; intros [|j]; simpl; try lia.
        specialize (IH j). lia.
      * by rewrite Hnames.
    + by rewrite (v1_callbacks_same st _ target' eventName') by (by apply Hother).
Qed.

(** X10. [register] of the first version calls [addEventListener]
    first.  When the call throws, [register] throws a wrapping error
    and [#events] is left as it was; when it returns, the callback is
    appended to the array of its target and event name, and no other
    array changes. *)
Lemma v1_register_cases W target eventName callback options st :
  let r := V1.register W target eventName callback options st in
  let b := mkBinding target eventName callback in
  match V1.add_outcome W (V1.trace st) b options with
  | Some x =>
      r = (V1.Threw (if instanceof_Error x
                     then V1.RegisterFailed target x
                     else V1.RegisterFailedUnknown target),
           V1.emit (V1.CallAdd b options) st)
  | None =>
      r.1 = V1.Returned ∧
      V1.trace r.2 = V1.trace st ++ [V1.CallAdd b options] ∧
      V1.callbacks r.2 target eventName =
        V1.callbacks st target eventName ++ [callback] ∧
      (∀ target', target' ≠ target →
         KeyMap.get target' (V1.events r.2) = KeyMap.get target' (V1.events st)) ∧
      (∀ eventName', eventName' ≠ eventName →
         V1.callbacks r.2 target eventName' = V1.callbacks st target eventName')
  end.
Proof.
  cbv zeta. unfold V1.register.
  destruct (V1.add_outcome W (V1.trace st) _ options); [done|].
  unfold V1.callbacks. simpl. rewrite km_get_set_eq.
  repeat split.
  - rewrite km_get_set_eq. by destruct (KeyMap.get target (V1.events st)).
  - intros target' Hne. by apply km_get_set_ne.
  - intros eventName' Hne. rewrite km_get_set_ne by done.
    by destruct (KeyMap.get target (V1.events st)).
Qed.

(** ** The first version: the loops of bulk disposal *)

Section V1Loops.
Variable W : V1.Targets.

(** What every [deregister] call and every warning preserves is
    preserved by the loops. *)
Section Preserved.
Variable P : V1.State → Prop.
Hypothesis P_deregister : ∀ st t e c, P st → P (V1.deregister W t e c st).2.
Hypothesis P_emit : ∀ st x, P st → P (V1.emit x st).

Lemma v1_dispose_events_preserves fuel t e : ∀ i st,
  P st → P (V1.dispose_events W fuel t e i st).
Proof using P_deregister P_emit.
  induction fuel as [|fuel IH]; intros i st HP; [done|]. simpl.
  destruct (V1.callbacks st t e !! i) as [c|]; [|done].
  pose proof (P_deregister st t e c HP) as HP'.
  destruct (V1.deregister W t e c st) as [[|error] st']; apply IH; simpl in *; auto.
Qed.

Lemma v1_dispose_names_preserves t names : ∀ st,
  P st → P (V1.dispose_names W t names st).
Proof using P_deregister P_emit.
  induction names as [|e names IH]; intros st HP; [done|]. simpl.
  by apply IH, v1_dispose_events_preserves.
Qed.

Lemma v1_dispose_targets_preserves targets : ∀ st,
  P st → P (V1.dispose_targets W targets st).
Proof using P_deregister P_emit.
  induction targets as [|t targets IH]; intros st HP; [done|]. simpl.
  by apply IH, v1_dispose_names_preserves.
Qed.

Lemma v1_dispose_preserves st : P st → P (V1.dispose W st).
Proof using P_deregister P_emit. apply v1_dispose_targets_preserves. Qed.

End Preserved.

(** The loop over one array leaves the other targets and the other
    event names alone. *)
Lemma v1_dispose_events_other_target fuel t e i st t' :
  t' ≠ t →
  KeyMap.get t' (V1.events (V1.dispose_events W fuel t e i st)) =
  KeyMap.get t' (V1.events st).
Proof.
  intros Hne. revert i st. induction fuel as [|fuel IH]; intros i st; [done|]. simpl.
  destruct (V1.callbacks st t e !! i) as [c|]; [|done].
  destruct (v1_deregister_cases W t e c st)
    as [(error & Hr & Hev & _)|(j & _ & _ & Hr & _ & _ & Hother & _)];
    destruct (V1.deregister W t e c st) as [r st']; simpl in *; subst r; rewrite IH.
  - simpl. by rewrite Hev.
  - by apply Hother.
Qed.

Lemma v1_dispose_events_other_name fuel t e i st e' :
  e' ≠ e →
  V1.callbacks (V1.dispose_events W fuel t e i st) t e' = V1.callbacks st t e'.
Proof.
  intros Hne. revert i st. induction fuel as [|fuel IH]; intros i st; [done|]. simpl.
  destruct (V1.callbacks st t e !! i) as [c|]; [|done].
  destruct (v1_deregister_cases W t e c st)
    as [(error & Hr & Hev & _)|(j & _ & _ & Hr & _ & _ & _ & Hnames)];
    destruct (V1.deregister W t e c st) as [r st']; simpl in *; subst r; rewrite IH.
  - unfold V1.callbacks. simpl. by rewrite Hev.
  - by apply Hnames.
Qed.

(** The bound on the rounds is never what ends the loop: with the
    length of the array as fuel, more fuel changes nothing. *)
Lemma v1_dispose_events_fuel fuel t e : ∀ more i st,
  length (V1.callbacks st t e) ≤ i + fuel →
  V1.dispose_events W (fuel + more) t e i st = V1.dispose_events W fuel t e i st.
Proof.
  induction fuel as [|fuel IH]; intros more i st Hlen.
  - simpl. destruct more as [|more]; [done|]. simpl.
    rewrite lookup_ge_None_2; [done|lia].
  - simpl. destruct (V1.callbacks st t e !! i) as [c|]; [|done].
    pose proof (v1_deregister_events W t e c st t e) as Hle.
    destruct (V1.deregister W t e c st) as [[|error] st']; simpl in Hle; apply IH.
    + lia.
    + unfold V1.callbacks in *. simpl. lia.
Qed.

(** With targets that let every listener go, the loop removes the
    callback under the index and steps over the one that slides into
    its place. *)
Lemma v1_dispose_events_skips fuel t e :
  V1.removable W →
  ∀ suf pre st,
    V1.callbacks st t e = pre ++ suf →
    NoDup (pre ++ suf) →
    length suf ≤ fuel →
    V1.callbacks (V1.dispose_events W fuel t e (length pre) st) t e =
    pre ++ V1.skipped suf.
Proof.
  intros Hcalm. induction fuel as [|fuel IH]; intros suf pre st Hcb Hnd Hlen.
  - destruct suf; [|simpl in Hlen; lia]. by simpl.
  - simpl. rewrite Hcb. destruct suf as [|x rest].
    { rewrite app_nil_r, lookup_ge_None_2 by lia. simpl. by rewrite Hcb. }
    rewrite list_lookup_middle by done.
    assert (Hx : x ∉ pre).
    { apply NoDup_app in Hnd as (_ & Hdis & _). intros Hin.
      apply (Hdis x Hin). apply list_elem_of_here. }
    destruct (v1_deregister_cases W t e x st)
      as [(error & _ & _ & _ & Hthrow)|(j & Hj & _ & Hr & _ & Hcb' & _ & _)].
    { destruct Hthrow as (y & Hy & _).
      - rewrite Hcb, v1_findIndex_middle by done. by eexists.
      - by rewrite Hcalm in Hy. }
    rewrite Hcb, v1_findIndex_middle in Hj by done. injection Hj as <-.
    rewrite Hcb, delete_middle in Hcb'.
    destruct (V1.deregister W t e x st) as [r st']. simpl in *. subst r.
    assert (Hnd' : NoDup (pre ++ rest)).
    { apply NoDup_app in Hnd as (Hpre & Hdis & Hsuf).
      apply NoDup_cons in Hsuf as [_ Hrest].
      apply NoDup_app. repeat split; [done| |done].
      intros y Hy Hin. apply (Hdis y Hy). by apply list_elem_of_further. }
    destruct rest as [|y rest].
    + rewrite app_nil_r in Hcb'. cbn [V1.skipped]. rewrite app_nil_r.
      destruct fuel as [|fuel']; simpl; [by rewrite Hcb'|].
      rewrite Hcb', lookup_ge_None_2 by lia. by rewrite Hcb'.
    + replace (S (length pre)) with (length (pre ++ [y])) by (rewrite length_app; simpl; lia).
      rewrite (IH rest (pre ++ [y]) st').
      * by rewrite <- app_assoc.
      * by rewrite <- app_assoc.
      * by rewrite <- app_assoc.
      * simpl in Hlen. lia.
Qed.

End V1Loops.

Section V1Dispose.
Variable W : V1.Targets.

Lemma v1_dispose_names_other_target t names t' : ∀ st,
  t' ≠ t →
  KeyMap.get t' (V1.events (V1.dispose_names W t names st)) =
  KeyMap.get t' (V1.events st).
Proof.
  induction names as [|e names IH]; intros st Hne; [done|]. simpl.
  rewrite IH by done. by apply v1_dispose_events_other_target.
Qed.

Lemma v1_dispose_names_other_name t names e : ∀ st,
  e ∉ names →
  V1.callbacks (V1.dispose_names W t names st) t e = V1.callbacks st t e.
Proof.
  induction names as [|n names IH]; intros st Hout; [done|]. simpl.
  apply not_elem_of_cons in Hout as [Hne Hout].
  rewrite IH by done. by apply v1_dispose_events_other_name.
Qed.

Lemma v1_dispose_names_skips t names e :
  V1.removable W →
  ∀ st,
    NoDup names → e ∈ names → NoDup (V1.callbacks st t e) →
    V1.callbacks (V1.dispose_names W t names st) t e =
    V1.skipped (V1.callbacks st t e).
Proof.
  intros Hcalm. induction names as [|n names IH]; intros st Hnd Hin Harr.
  - by apply not_elem_of_nil in Hin.
  - apply NoDup_cons in Hnd as [Hn Hnd]. simpl.
    destruct (decide (n = e)) as [->|Hne].
    + rewrite v1_dispose_names_other_name by done.
      by apply (v1_dispose_events_skips W _ t e Hcalm (V1.callbacks st t e) [] st).
    + apply elem_of_cons in Hin as [->|Hin]; [done|].
      rewrite IH; [|done|done|].
      * by rewrite v1_dispose_events_other_name.
      * by rewrite v1_dispose_events_other_name.
Qed.

Lemma v1_dispose_targets_other_target targets t : ∀ st,
  t ∉ targets →
  KeyMap.get t (V1.events (V1.dispose_targets W targets st)) =
  KeyMap.get t (V1.events st).
Proof.
  induction targets as [|n targets IH]; intros st Hout; [done|]. simpl.
  apply not_elem_of_cons in Hout as [Hne Hout].
  rewrite IH by done. by apply v1_dispose_names_other_target.
Qed.

Lemma v1_dispose_targets_skips targets t e :
  V1.removable W →
  ∀ st,
    NoDup targets → t ∈ targets →
    (∀ targetEvents, KeyMap.get t (V1.events st) = Some targetEvents →
                     NoDup (KeyMap.keys targetEvents)) →
    NoDup (V1.callbacks st t e) →
    V1.callbacks (V1.dispose_targets W targets st) t e =
    V1.skipped (V1.callbacks st t e).
Proof.
  intros Hcalm. induction targets as [|n targets IH]; intros st Hnd Hin Hkeys Harr.
  - by apply not_elem_of_nil in Hin.
  - apply NoDup_cons in Hnd as [Hn Hnd]. simpl.
    destruct (decide (n = t)) as [->|Hne].
    + rewrite (v1_callbacks_same _ _ t e (v1_dispose_targets_other_target targets t _ Hn)).
      destruct (KeyMap.get t (V1.events st)) as [targetEvents|] eqn:Ht.
      * destruct (decide (e ∈ KeyMap.keys targetEvents)) as [He|He].
        -- apply v1_dispose_names_skips; auto.
        -- rewrite v1_dispose_names_other_name by done.
           rewrite (v1_callbacks_get st t e targetEvents Ht).
           by rewrite (km_get_None_keys e targetEvents He).
      * simpl. unfold V1.callbacks. by rewrite Ht.
    + apply elem_of_cons in Hin as [->|Hin]; [done|].
      assert (Hsame : KeyMap.get t (V1.events
                        (V1.dispose_names W n
                           match KeyMap.get n (V1.events st) with
                           | Some targetEvents => KeyMap.keys targetEvents
                           | None => []
                           end st)) = KeyMap.get t (V1.events st)).
      { by apply v1_dispose_names_other_target. }
      rewrite IH; [|done|done| |].
      * by rewrite (v1_callbacks_same _ _ t e Hsame).
      * intros targetEvents. rewrite Hsame. apply Hkeys.
      * by rewrite (v1_callbacks_same _ _ t e Hsame).
Qed.

End V1Dispose.

(** ** The first version: what users observe *)

(** X11. Bulk disposal of the first version steps over listeners. When
    no [removeEventListener] throws, every array of (distinct)
    callbacks is left with the callbacks that were at its odd
    positions: of [c0; c1; c2; c3; c4] the callbacks [c1; c3] stay
    registered, on the target and in the manager. *)
Theorem v1_dispose_skips (W : V1.Targets) (st : V1.State)
    (target : nat) (eventName : EventName) :
  V1.keys_unique st →
  V1.removable W →
  NoDup (V1.callbacks st target eventName) →
  V1.callbacks (V1.dispose W st) target eventName =
  V1.skipped (V1.callbacks st target eventName).
Proof.
  intros [Houter Hinner] Hcalm Harr. unfold V1.dispose.
  destruct (decide (target ∈ KeyMap.keys (V1.events st))) as [Hin|Hout].
  - apply v1_dispose_targets_skips; auto. apply Hinner.
  - rewrite (v1_callbacks_same _ _ target eventName
               (v1_dispose_targets_other_target W _ target st Hout)).
    unfold V1.callbacks. by rewrite (km_get_None_keys target _ Hout).
Qed.

(** ** The first version: invariants *)

Lemma v1_tidy_set st st' t targetEvents :
  V1.events st' = KeyMap.set t targetEvents (V1.events st) →
  targetEvents ≠ [] →
  (∀ e arr, KeyMap.get e targetEvents = Some arr → arr ≠ []) →
  V1.tidy st → V1.tidy st'.
Proof.
  intros Hev Hne Harr Htidy target tE. rewrite Hev.
  destruct (decide (t = target)) as [->|Ht].
  - rewrite km_get_set_eq. by intros [= <-].
  - rewrite km_get_set_ne by done. apply Htidy.
Qed.

Lemma v1_tidy_delete st st' t :
  V1.events st' = KeyMap.delete t (V1.events st) → V1.tidy st → V1.tidy st'.
Proof.
  intros Hev Htidy target tE. rewrite Hev.
  destruct (decide (t = target)) as [->|Ht].
  - by rewrite km_get_delete_eq.
  - rewrite km_get_delete_ne by done. apply Htidy.
Qed.

Lemma v1_tidy_register W t e c o st : V1.tidy st → V1.tidy (V1.register W t e c o st).2.
Proof.
  intros Htidy. unfold V1.register.
  destruct (V1.add_outcome W (V1.trace st) _ o); [done|]. simpl.
  eapply v1_tidy_set; [done| | |done].
  - apply v1_set_not_nil.
  - intros e' arr. destruct (decide (e = e')) as [->|He].
    + rewrite km_get_set_eq. intros [= <-]. by destruct (default [] _).
    + rewrite km_get_set_ne by done.
      destruct (KeyMap.get t (V1.events st)) as [tE|] eqn:Ht; [|done].
      by apply (Htidy t tE).
Qed.

Lemma v1_tidy_deregister W t e c st : V1.tidy st → V1.tidy (V1.deregister W t e c st).2.
Proof.
  intros Htidy. unfold V1.deregister.
  destruct (KeyMap.get t (V1.events st)) as [tE|] eqn:Ht; [|done].
  destruct (KeyMap.get e tE) as [arr|] eqn:He; [|done].
  destruct (V1.findIndex c arr) as [j|]; [|done].
  destruct (V1.remove_outcome W (V1.trace st) _); [done|].
  destruct (Htidy t tE Ht) as [_ Harr].
  destruct (decide (length (delete j arr) = 0)) as [Hlen|Hlen].
  - destruct (decide (length (KeyMap.delete e tE) = 0)) as [Hlen'|Hlen']; simpl.
    + by eapply v1_tidy_delete.
    + eapply v1_tidy_set; [done| | |done].
      * intros Hnil. by rewrite Hnil in Hlen'.
      * intros e' arr'. destruct (decide (e = e')) as [->|Hne].
        -- by rewrite km_get_delete_eq.
        -- rewrite km_get_delete_ne by done. apply Harr.
  - rewrite decide_False by apply v1_set_length. simpl.
    eapply v1_tidy_set; [done| | |done].
    + apply v1_set_not_nil.
    + intros e' arr'. destruct (decide (e = e')) as [->|Hne].
      * rewrite km_get_set_eq. intros [= <-] Hnil. by rewrite Hnil in Hlen.
      * rewrite km_get_set_ne by done. apply Harr.
Qed.

Lemma v1_keys_unique_set st st' t targetEvents :
  V1.events st' = KeyMap.set t targetEvents (V1.events st) →
  NoDup (KeyMap.keys targetEvents) →
  V1.keys_unique st → V1.keys_unique st'.
Proof.
  intros Hev Hnd [Houter Hinner]. split.
  - rewrite Hev. by apply km_NoDup_set.
  - intros target tE. rewrite Hev. destruct (decide (t = target)) as [->|Ht].
    + rewrite km_get_set_eq. by intros [= <-].
    + rewrite km_get_set_ne by done. apply Hinner.
Qed.

Lemma v1_keys_unique_delete st st' t :
  V1.events st' = KeyMap.delete t (V1.events st) →
  V1.keys_unique st → V1.keys_unique st'.
Proof.
  intros Hev [Houter Hinner]. split.
  - rewrite Hev. by apply km_NoDup_delete.
  - intros target tE. rewrite Hev. destruct (decide (t = target)) as [->|Ht].
    + by rewrite km_get_delete_eq.
    + rewrite km_get_delete_ne by done. apply Hinner.
Qed.

Lemma v1_keys_unique_register W t e c o st :
  V1.keys_unique st → V1.keys_unique (V1.register W t e c o st).2.
Proof.
  intros Hkeys. unfold V1.register.
  destruct (V1.add_outcome W (V1.trace st) _ o); [done|]. simpl.
  eapply v1_keys_unique_set; [done| |done].
  apply km_NoDup_set.
  destruct (KeyMap.get t (V1.events st)) as [tE|] eqn:Ht; simpl.
  - by apply (proj2 Hkeys t).
  - apply NoDup_nil_2.
Qed.

Lemma v1_keys_unique_deregister W t e c st :
  V1.keys_unique st → V1.keys_unique (V1.deregister W t e c st).2.
Proof.
  intros Hkeys. unfold V1.deregister.
  destruct (KeyMap.get t (V1.events st)) as [tE|] eqn:Ht; [|done].
  destruct (KeyMap.get e tE) as [arr|] eqn:He; [|done].
  destruct (V1.findIndex c arr) as [j|]; [|done].
  destruct (V1.remove_outcome W (V1.trace st) _); [done|].
  pose proof (proj2 Hkeys t tE Ht) as Hnd.
  destruct (decide (length (delete j arr) = 0)) as [Hlen|Hlen].
  - destruct (decide (length (KeyMap.delete e tE) = 0)) as [Hlen'|Hlen']; simpl.
    + by eapply v1_keys_unique_delete.
    + eapply v1_keys_unique_set; [done| |done]. by apply km_NoDup_delete.
  - rewrite decide_False by apply v1_set_length. simpl.
    eapply v1_keys_unique_set; [done| |done]. by apply km_NoDup_set.
Qed.

Lemma v1_run_snoc W ops op st :
  V1.run W (ops ++ [op]) st = V1.step W op (V1.run W ops st).
Proof. unfold V1.run. by rewrite foldl_app. Qed.

Lemma v1_tidy_step W op st : V1.tidy st → V1.tidy (V1.step W op st).
Proof.
  destruct op as [t e c o|t e c|]; intros Hst; simpl.
  - by apply v1_tidy_register.
  - by apply v1_tidy_deregister.
  - apply (v1_dispose_preserves W V1.tidy); [|done..].
    intros st' t e c. apply v1_tidy_deregister.
Qed.

Lemma v1_keys_unique_step W op st :
  V1.keys_unique st → V1.keys_unique (V1.step W op st).
Proof.
  destruct op as [t e c o|t e c|]; intros Hst; simpl.
  - by apply v1_keys_unique_register.
  - by apply v1_keys_unique_deregister.
  - apply (v1_dispose_preserves W V1.keys_unique); [|done..].
    intros st' t e c. apply v1_keys_unique_deregister.
Qed.

Lemma v1_tidy_run W ops : V1.tidy (V1.run W ops V1.new_manager).
Proof.
  induction ops as [|op ops IH] using rev_ind; [by intros target tE|].
  rewrite v1_run_snoc. by apply v1_tidy_step.
Qed.

Lemma v1_keys_unique_run W ops : V1.keys_unique (V1.run W ops V1.new_manager).
Proof.
  induction ops as [|op ops IH] using rev_ind.
  - split; [apply NoDup_nil_2|by intros target tE].
  - rewrite v1_run_snoc. by apply v1_keys_unique_step.
Qed.

(** X12. The first version never stores a target without an event
    name nor an event name without a callback, and never holds a key
    twice: both hold of a new manager and are kept by every [register],
    [deregister] and [[Symbol.dispose]] call, whether it returns or
    throws, hence after any sequence of calls. *)
Theorem v1_reachable_tidy (W : V1.Targets) :
  (∀ op st, V1.tidy st → V1.tidy (V1.step W op st)) ∧
  (∀ op st, V1.keys_unique st → V1.keys_unique (V1.step W op st)) ∧
  (∀ ops, V1.tidy (V1.run W ops V1.new_manager) ∧
          V1.keys_unique (V1.run W ops V1.new_manager)).
Proof.
  split; [apply v1_tidy_step|]. split; [apply v1_keys_unique_step|].
  intros ops. split; [apply v1_tidy_run|apply v1_keys_unique_run].
Qed.

Lemma v1_reachable_tidy_witness :
  V1.tidy (V1.step V1.calm (V1.OpRegister 7 "a" 1 OptUndefined) V1.new_manager) ∧
  V1.keys_unique (V1.step V1.calm (V1.OpRegister 7 "a" 1 OptUndefined) V1.new_manager) ∧
  V1.tidy (V1.run V1.calm [V1.OpRegister 7 "a" 1 OptUndefined; V1.OpDispose] V1.new_manager).
Proof.
  destruct (v1_reachable_tidy V1.calm) as (Htidy & Hkeys & Hrun).
  split; [|split].
  - apply Htidy. by intros target tE.
  - apply Hkeys. split; [apply NoDup_nil_2|by intros target tE].
  - apply Hrun.
Defined.

Lemma v1_dispose_skips_witness :
  V1.callbacks
    (V1.dispose V1.calm
       (V1.run V1.calm [V1.OpRegister 7 "a" 1 OptUndefined;
                        V1.OpRegister 7 "a" 2 OptUndefined;
                        V1.OpRegister 7 "a" 3 OptUndefined] V1.new_manager)) 7 "a"
  = [2].
Proof.
  apply (v1_dispose_skips V1.calm
           (V1.run V1.calm [V1.OpRegister 7 "a" 1 OptUndefined;
                            V1.OpRegister 7 "a" 2 OptUndefined;
                            V1.OpRegister 7 "a" 3 OptUndefined] V1.new_manager) 7 "a").
  - apply v1_keys_unique_run.
  - by intros tr b.
  - apply (bool_decide_unpack (NoDup [1; 2; 3])). by vm_compute.
Defined.

(** X13. When every array of the first version holds at most one
    callback and no [removeEventListener] throws, bulk disposal leaves
    the manager empty. *)
Theorem v1_dispose_empties (W : V1.Targets) (st : V1.State) :
  V1.tidy st →
  V1.keys_unique st →
  V1.removable W →
  (∀ target eventName, length (V1.callbacks st target eventName) ≤ 1) →
  V1.events (V1.dispose W st) = [].
Proof.
  intros Htidy Hkeys Hcalm Hone.
  assert (Htidy' : V1.tidy (V1.dispose W st)) by apply (v1_tidy_step W V1.OpDispose st Htidy).
  assert (Hnone : ∀ target eventName, V1.callbacks (V1.dispose W st) target eventName = []).
  { intros target eventName.
    assert (Hsk : V1.callbacks (V1.dispose W st) target eventName =
                  V1.skipped (V1.callbacks st target eventName)).
    { unfold V1.dispose.
      destruct (decide (target ∈ KeyMap.keys (V1.events st))) as [Hin|Hout].
      - apply v1_dispose_targets_skips; auto; [apply Hkeys|apply Hkeys|].
        specialize (Hone target eventName).
        destruct (V1.callbacks st target eventName) as [|x [|y l]];
          [apply NoDup_nil_2|apply NoDup_singleton|simpl in Hone; lia].
      - rewrite (v1_callbacks_same _ _ target eventName
                   (v1_dispose_targets_other_target W _ target st Hout)).
        unfold V1.callbacks. by rewrite (km_get_None_keys target _ Hout). }
    rewrite Hsk. specialize (Hone target eventName).
    destruct (V1.callbacks st target eventName) as [|x [|y l]]; [done|done|simpl in Hone; lia]. }
  destruct (V1.events (V1.dispose W st)) as [|[t tE] rest] eqn:Hev; [done|].
  exfalso.
  destruct (Htidy' t tE) as [Hne Harr]; [rewrite Hev; simpl; by rewrite decide_True|].
  destruct tE as [|[e arr] tE]; [done|].
  specialize (Harr e arr). specialize (Hnone t e).
  unfold V1.callbacks in Hnone. rewrite Hev in Hnone. simpl in *.
  repeat (rewrite decide_True in Hnone by done; simpl in Hnone).
  rewrite decide_True in Harr by done. by apply Harr.
Qed.

Lemma v1_dispose_empties_witness :
  V1.events
    (V1.dispose V1.calm
       (V1.run V1.calm [V1.OpRegister 7 "a" 1 OptUndefined;
                        V1.OpRegister 8 "b" 2 OptUndefined] V1.new_manager)) = [].
Proof.
  apply (v1_dispose_empties V1.calm).
  - apply v1_tidy_run.
  - apply v1_keys_unique_run.
  - by intros tr b.
  - intros target eventName. unfold V1.callbacks. simpl.
    repeat (case_decide; simpl; try lia).
Defined.

(** X14. A listener that its target does not let go stays registered
    in the first version: when every [removeEventListener] throws, bulk
    disposal leaves [#events] exactly as it was. *)
Theorem v1_dispose_keeps_unremoved (W : V1.Targets) (st : V1.State) :
  (∀ tr b, is_Some (V1.remove_outcome W tr b)) →
  V1.events (V1.dispose W st) = V1.events st.
Proof.
  intros Hthrow.
  apply (v1_dispose_preserves W (λ s, V1.events s = V1.events st)); [| |done].
  - intros s t e c Hs.
    destruct (v1_deregister_cases W t e c s)
      as [(error & _ & Hev & _)|(j & _ & Hnone & _)].
    + by rewrite Hev.
    + destruct (Hthrow (V1.trace s) (mkBinding t e c)) as [x Hx]. congruence.
  - by intros s x Hs.
Qed.

Lemma v1_dispose_keeps_unremoved_witness :
  V1.events
    (V1.dispose V1.clinging
       (V1.run V1.clinging [V1.OpRegister 7 "a" 1 OptUndefined] V1.new_manager))
  = [(7, [("a", [1])])].
Proof. apply (v1_dispose_keeps_unremoved V1.clinging). intros tr b. by eexists. Defined.

(** X15. In the first version [deregister] with a callback that is not
    registered for the target and the event name throws before it
    touches anything: the target is not called and the manager is left
    as it was.  The error names the target alone when the target is
    unknown, the target and the event name otherwise. *)
Theorem v1_deregister_unregistered (W : V1.Targets) (st : V1.State)
    (target : nat) (eventName : EventName) (callback : nat) :
  callback ∉ V1.callbacks st target eventName →
  V1.deregister W target eventName callback st =
  (V1.Threw (if KeyMap.get target (V1.events st) is Some _
             then V1.NoEventForName target eventName
             else V1.NoEventForTarget target), st).
Proof.
  intros Hout. apply v1_findIndex_None in Hout.
  destruct (v1_deregister_cases W target eventName callback st)
    as [(error & Hr & _ & Hmiss & _)|(j & Hj & _)]; [|congruence].
  destruct (Hmiss Hout) as [Hst ->].
  destruct (V1.deregister W target eventName callback st) as [r st'].
  simpl in *. by subst.
Qed.

Lemma v1_deregister_unregistered_witness :
  V1.deregister V1.calm 7 "b" 1
    (V1.run V1.calm [V1.OpRegister 7 "a" 1 OptUndefined] V1.new_manager) =
  (V1.Threw (V1.NoEventForName 7 "b"),
   V1.run V1.calm [V1.OpRegister 7 "a" 1 OptUndefined] V1.new_manager).
Proof.
  apply (v1_deregister_unregistered V1.calm
           (V1.run V1.calm [V1.OpRegister 7 "a" 1 OptUndefined] V1.new_manager) 7 "b" 1).
  apply not_elem_of_nil.
Defined.

(** X16. In the first version [deregister] with a registered callback
    calls [removeEventListener] exactly once.  When the call returns,
    the first occurrence of the callback leaves its array and no other
    array changes; when it throws, [deregister] throws a wrapping error
    and the manager keeps the callback. *)
Theorem v1_deregister_registered (W : V1.Targets) (st : V1.State)
    (target : nat) (eventName : EventName) (callback : nat) :
  callback ∈ V1.callbacks st target eventName →
  let r := V1.deregister W target eventName callback st in
  let b := mkBinding target eventName callback in
  V1.trace r.2 = V1.trace st ++ [V1.CallRemove b] ∧
  match V1.remove_outcome W (V1.trace st) b with
  | None =>
      r.1 = V1.Returned ∧
      (∃ j, V1.findIndex callback (V1.callbacks st target eventName) = Some j ∧
            V1.callbacks r.2 target eventName =
              delete j (V1.callbacks st target eventName)) ∧
      ∀ target' eventName',
        (target', eventName') ≠ (target, eventName) →
        V1.callbacks r.2 target' eventName' = V1.callbacks st target' eventName'
  | Some x =>
      r.1 = V1.Threw (if instanceof_Error x
                      then V1.DeregisterFailed target x
                      else V1.DeregisterFailedUnknown target) ∧
      V1.events r.2 = V1.events st
  end.
Proof.
  intros Hin. cbv zeta.
  assert (Hfound : is_Some (V1.findIndex callback (V1.callbacks st target eventName))).
  { destruct (V1.findIndex callback (V1.callbacks st target eventName)) eqn:Hj; [by eexists|].
    by apply v1_findIndex_None in Hj. }
  destruct (v1_deregister_cases W target eventName callback st)
    as [(error & Hr & Hev & _ & Hthrow)|(j & Hj & Hnone & Hr & Htr & Hcb & Hother & Hnames)].
  - destruct (Hthrow Hfound) as (x & Hx & Hst & ->). rewrite Hx, Hst. done.
  - rewrite Hnone. split; [done|]. split; [done|]. split; [by exists j|].
    intros target' eventName' Hne.
    destruct (decide (target' = target)) as [->|Ht].
    + apply Hnames. congruence.
    + apply v1_callbacks_same. by apply Hother.
Qed.

Lemma v1_deregister_registered_witness :
  let st := V1.run V1.calm [V1.OpRegister 7 "a" 1 OptUndefined;
                            V1.OpRegister 7 "a" 2 OptUndefined] V1.new_manager in
  let r := V1.deregister V1.calm 7 "a" 1 st in
  V1.trace r.2 = V1.trace st ++ [V1.CallRemove (mkBinding 7 "a" 1)] ∧
  r.1 = V1.Returned ∧
  (∃ j, V1.findIndex 1 (V1.callbacks st 7 "a") = Some j ∧
        V1.callbacks r.2 7 "a" = delete j (V1.callbacks st 7 "a")) ∧
  ∀ target' eventName',
    (target', eventName') ≠ (7, "a") →
    V1.callbacks r.2 target' eventName' = V1.callbacks st target' eventName'.
Proof.
  apply (v1_deregister_registered V1.calm
           (V1.run V1.calm [V1.OpRegister 7 "a" 1 OptUndefined;
                            V1.OpRegister 7 "a" 2 OptUndefined] V1.new_manager) 7 "a" 1).
  apply list_elem_of_here.
Defined.

(** X17. In the first version, registering a callback that the array
    does not hold yet and deregistering it again brings [#events] back
    to what it was, keys and order included; the target sees one
    [addEventListener] and one [removeEventListener] call. *)
Theorem v1_register_deregister (W : V1.Targets) (st : V1.State)
    (target : nat) (eventName : EventName) (callback : nat) (options : Options) :
  let b := mkBinding target eventName callback in
  V1.tidy st →
  callback ∉ V1.callbacks st target eventName →
  V1.add_outcome W (V1.trace st) b options = None →
  V1.remove_outcome W (V1.trace st ++ [V1.CallAdd b options]) b = None →
  V1.deregister W target eventName callback
    (V1.register W target eventName callback options st).2 =
  (V1.Returned,
   V1.mkState (V1.events st)
     (V1.trace st ++ [V1.CallAdd b options; V1.CallRemove b])).
Proof.
  intros b Htidy Hout Hadd Hrem.
  unfold V1.register. fold b. rewrite Hadd. cbn [snd].
  unfold V1.deregister. fold b. cbn [V1.events V1.with_events V1.emit V1.trace].
  rewrite km_get_set_eq, km_get_set_eq, Hrem.
  assert (Harr0 : default [] (KeyMap.get eventName
                                (default [] (KeyMap.get target (V1.events st))))
                  = V1.callbacks st target eventName).
  { unfold V1.callbacks. by destruct (KeyMap.get target (V1.events st)). }
  rewrite Harr0.
  rewrite (v1_findIndex_middle callback (V1.callbacks st target eventName) []) by done.
  rewrite delete_middle, app_nil_r, km_delete_set, !km_set_set.
  assert (Htrace : (V1.trace st ++ [V1.CallAdd b options]) ++ [V1.CallRemove b] =
                   V1.trace st ++ [V1.CallAdd b options; V1.CallRemove b])
    by (by rewrite <- app_assoc).
  unfold V1.with_events, V1.emit. cbn [V1.trace V1.events]. rewrite Htrace. do 2 f_equal.
  unfold V1.callbacks in *.
  destruct (KeyMap.get target (V1.events st)) as [tE|] eqn:Ht.
  - change (default [] (Some tE)) with tE in *.
    destruct (Htidy target tE Ht) as [HtE Harr].
    destruct (KeyMap.get eventName tE) as [arr|] eqn:He.
    + change (default [] (Some arr)) with arr in *.
      destruct (decide (length arr = 0)) as [Hlen|_].
      { apply nil_length_inv in Hlen. by apply Harr in He. }
      rewrite decide_False by apply v1_set_length.
      by rewrite (km_set_get_id eventName arr tE He), (km_set_get_id target tE _ Ht).
    + change (default [] None) with (@nil nat) in *.
      destruct (decide (length (@nil nat) = 0)) as [_|Hn]; [|done].
      rewrite (km_delete_absent eventName tE He).
      destruct (decide (length tE = 0)) as [Hlen|_].
      { by apply nil_length_inv in Hlen. }
      by rewrite (km_set_get_id target tE _ Ht).
  - change (default [] None) with (@nil (EventName * list nat)) in *.
    change (default [] (KeyMap.get eventName [])) with (@nil nat).
    destruct (decide (length (@nil nat) = 0)) as [_|Hn]; [|done].
    destruct (decide (length (KeyMap.delete eventName (@nil (EventName * list nat))) = 0))
      as [_|Hn]; [|done].
    by rewrite km_delete_set, (km_delete_absent target _ Ht).
Qed.

Lemma v1_register_deregister_witness :
  let st := V1.run V1.calm [V1.OpRegister 7 "a" 1 OptUndefined] V1.new_manager in
  V1.deregister V1.calm 7 "a" 2 (V1.register V1.calm 7 "a" 2 OptUndefined st).2 =
  (V1.Returned,
   V1.mkState (V1.events st)
     (V1.trace st ++ [V1.CallAdd (mkBinding 7 "a" 2) OptUndefined;
                      V1.CallRemove (mkBinding 7 "a" 2)])).
Proof.
  apply (v1_register_deregister V1.calm
           (V1.run V1.calm [V1.OpRegister 7 "a" 1 OptUndefined] V1.new_manager)
           7 "a" 2 OptUndefined).
  - apply v1_tidy_run.
  - apply (bool_decide_unpack (2 ∉ [1])). by vm_compute.
  - reflexivity.
  - reflexivity.
Defined.

(** ** More on the second version *)

Lemma register_returns_symbol W t e c o st h st1 :
  register W t e c o st = (Ok h, st1) →
  h = symbols st ∧ symbols st1 = S (symbols st) ∧
  add_outcome W (trace st) (mkBinding t e c) o = None.
Proof.
  destruct (ledger st t) as [[stk m]|] eqn:Hl.
  - destruct (DisposableStack.ds_disposed stk) eqn:Hd.
    + by rewrite (register_spent W t e c o st stk m).
    + rewrite (register_tracked W t e c o st stk m) by done. simpl.
      destruct (add_outcome W (trace st) _ o); [done|]. by intros [= <- <-].
  - rewrite register_untracked by done. simpl.
    destruct (add_outcome W (trace st) _ o); [done|]. by intros [= <- <-].
Qed.

(** X2. Only [[Symbol.dispose]] sets the disposed flag and nothing
    resets it: [register] and [deregister] leave the flag as it is in
    every state, whether they return or throw, and a disposed manager
    stays disposed whatever is called on it. *)
Theorem disposed_flag (W : Targets) :
  (∀ op st,
     disposed (step W op st) =
     match op with OpDispose => true | _ => disposed st end) ∧
  (∀ ops st, disposed st = true → disposed (run W ops st) = true).
Proof.
  assert (Hstep : ∀ op st,
            disposed (step W op st) =
            match op with OpDispose => true | _ => disposed st end).
  { intros [t e c o|t s|] st; simpl.
    - destruct (ledger st t) as [[stk m]|] eqn:Hl.
      + destruct (DisposableStack.ds_disposed stk) eqn:Hd.
        * by rewrite (register_spent W t e c o st stk m).
        * rewrite (register_tracked W t e c o st stk m) by done. simpl.
          by destruct (add_outcome W (trace st) _ o).
      + rewrite register_untracked by done. simpl.
        by destruct (add_outcome W (trace st) _ o).
    - destruct (ledger st t) as [entry|] eqn:Hl.
      + destruct (entry.2 !! s) as [[b s']|] eqn:Hs.
        * rewrite (deregister_call_early W st t s entry (EarlyDispose b s')) by done.
          rewrite call_early_run. cbv zeta.
          destruct (ledger st (bd_target b)) as [[stk m]|]; [|done].
          destruct (DisposableStack.ds_disposed stk); [done|].
          by destruct (decide (size (delete s' m) = 0)).
        * by rewrite (deregister_unknown_symbol W st t s entry).
      + by rewrite deregister_untracked.
    - apply dispose_sets_flag. }
  split; [exact Hstep|].
  intros ops st Hd. induction ops as [|op ops IH] using rev_ind; [done|].
  rewrite run_snoc, Hstep. by destruct op.
Qed.

Lemma disposed_flag_witness :
  disposed (run calm [OpRegister 7 "a" 1 OptUndefined; OpDeregister 7 0]
              (step calm OpDispose new_manager)) = true.
Proof.
  destruct (disposed_flag calm) as [Hstep Hrun].
  apply Hrun. by rewrite Hstep.
Defined.

Lemma handles_change_closure op st st' target symbol f :
  ledgers_change op st st' →
  handles st' target !! symbol = Some f →
  handles st target !! symbol = Some f ∨
  (∃ e c o, op = OpRegister target e c o ∧ symbol = symbols st ∧
            f = EarlyDispose (mkBinding target e c) symbol).
Proof.
  intros Hchange.
  destruct Hchange as [Hev|t stk0 stk m Hl Hev|t e c o stk Hop _ Hev|t s stk Hne Hev|t Hev|Hev].
  - rewrite (handles_same st st') by done. auto.
  - rewrite (handles_set st st' t _ target Hev). case_decide as Ht; [|auto].
    subst t. simpl. unfold handles. rewrite Hl. auto.
  - rewrite (handles_set st st' t _ target Hev). case_decide as Ht; [|auto].
    subst t. simpl. rewrite lookup_insert. case_decide as Hs; [|auto].
    subst symbol. intros [= <-]. right. by exists e, c, o.
  - rewrite (handles_set st st' t _ target Hev). case_decide as Ht; [|auto].
    subst t. simpl. rewrite lookup_delete. case_decide; [done|auto].
  - rewrite (handles_delete st st' t target Hev). case_decide; [done|auto].
  - by rewrite handles_no_ledgers.
Qed.

Lemma closures_own_step W op st : closures_own st → closures_own (step W op st).
Proof.
  intros Hown target h b s Hf.
  destruct (step_change W op st) as [Hchange _].
  destruct (handles_change_closure op st _ target h _ Hchange Hf)
    as [Hold|(e & c & o & _ & _ & [= -> ->])].
  - by apply Hown.
  - done.
Qed.

Lemma closures_own_run W ops : closures_own (run W ops new_manager).
Proof.
  induction ops as [|op ops IH] using rev_ind.
  - intros target h b s. by rewrite handles_no_ledgers.
  - rewrite run_snoc. by apply closures_own_step.
Qed.

(** X3. [register] and [deregister] work on the ledger of their own
    target only: in every state in which the handles close over their
    own target (every state that calls on a new manager lead to), a
    call for one target leaves the ledger of every other target as it
    was, whether the call returns or throws. *)
Theorem other_targets_untouched (W : Targets) (op : Op) (st : State)
    (target other : nat) :
  closures_own st →
  op_target op = Some target →
  other ≠ target →
  ledger (step W op st) other = ledger st other.
Proof.
  intros Hown Hop Hne. destruct op as [t e c o|t s|]; simpl in Hop; [| |done];
    injection Hop as ->; simpl.
  - destruct (ledger st target) as [[stk m]|] eqn:Hl.
    + destruct (DisposableStack.ds_disposed stk) eqn:Hd.
      * by rewrite (register_spent W target e c o st stk m).
      * rewrite (register_tracked W target e c o st stk m) by done. simpl.
        destruct (add_outcome W (trace st) _ o); simpl.
        -- unfold ledger. simpl. by rewrite get_set_ne.
        -- unfold ledger, registered. simpl. by rewrite get_set_ne.
    + rewrite register_untracked by done. simpl.
      destruct (add_outcome W (trace st) _ o); [done|].
      unfold ledger, registered. simpl. by rewrite get_set_ne.
  - destruct (ledger st target) as [[stk m]|] eqn:Hl.
    + destruct (m !! s) as [[b s']|] eqn:Hs.
      * destruct (Hown target s b s') as [Hb ->].
        { unfold handles. by rewrite Hl. }
        rewrite (deregister_call_early W st target s (stk, m) (EarlyDispose b s)) by done.
        rewrite call_early_run. cbv zeta. rewrite Hb, Hl.
        destruct (DisposableStack.ds_disposed stk); [done|].
        destruct (decide (size (delete s m) = 0)); unfold ledger; simpl.
        -- by rewrite get_delete_ne.
        -- by rewrite get_set_ne.
      * by rewrite (deregister_unknown_symbol W st target s (stk, m)).
    + by rewrite deregister_untracked.
Qed.

Lemma other_targets_untouched_witness :
  ledger (step calm (OpDeregister 7 0)
            (run calm [OpRegister 7 "a" 1 OptUndefined;
                       OpRegister 8 "b" 2 OptUndefined] new_manager)) 8 =
  ledger (run calm [OpRegister 7 "a" 1 OptUndefined;
                    OpRegister 8 "b" 2 OptUndefined] new_manager) 8.
Proof.
  apply (other_targets_untouched calm (OpDeregister 7 0) _ 7 8).
  - apply closures_own_run.
  - reflexivity.
  - lia.
Defined.

Lemma jsmap_delete_absent {V} (k : nat) (m : list (nat * V)) :
  JsMap.get k m = None → JsMap.delete k m = m.
Proof.
  induction m as [|[k0 v0] m IH]; [done|]. simpl.
  destruct (decide (k0 = k)); [done|]. intros Hget. by rewrite IH.
Qed.

(** X4. On a target that the manager does not track, registering a
    listener and releasing it with the returned symbol brings the
    manager back to where it was: the same ledgers in the same order and
    the same flag; the target sees one [addEventListener] and one
    [removeEventListener] call. *)
Theorem register_deregister_untracked (W : Targets) (st : State)
    (target : nat) (eventName : EventName) (callback : nat) (options : Options) :
  let b := mkBinding target eventName callback in
  ledger st target = None →
  add_outcome W (trace st) b options = None →
  ∃ st1 st2,
    register W target eventName callback options st = (Ok (symbols st), st1) ∧
    deregister W target (symbols st) st1 = (Ok tt, st2) ∧
    registry st2 = registry st ∧
    detached (since st st2) = [b] ∧
    ∃ es, since st st2 = AddEventListener b options :: es.
Proof.
  intros b Hl Hadd.
  exists (registered st b options [] ∅). eexists.
  split.
  { rewrite register_untracked by done. cbv zeta. fold b. by rewrite Hadd. }
  assert (Hl1 : ledger (registered st b options [] ∅) target =
                Some (DisposableStack.mk false ([] ++ [DeferDispose b]),
                      <[symbols st := EarlyDispose b (symbols st)]> ∅)).
  { unfold ledger, registered. simpl. apply get_set_eq. }
  rewrite (deregister_call_early W _ target (symbols st) _
             (EarlyDispose b (symbols st)) Hl1) by apply lookup_insert_eq.
  rewrite call_early_run. cbv zeta.
  change (bd_target b) with target. rewrite Hl1. cbn [DisposableStack.ds_disposed].
  rewrite decide_True by (by rewrite delete_insert_eq, delete_empty, map_size_empty).
  split; [done|]. split; [|split].
  - unfold registry, registered. simpl. f_equal.
    rewrite delete_set. by apply jsmap_delete_absent.
  - unfold since, early_detached, registered, emits. simpl.
    rewrite <- app_assoc, drop_app_length. cbn [app detached].
    by rewrite detached_detach_effects.
  - unfold since, early_detached, registered, emits. simpl.
    rewrite <- app_assoc, drop_app_length. simpl. by eexists.
Qed.

Lemma register_deregister_untracked_witness :
  ∃ st1 st2,
    register calm 7 "a" 1 OptUndefined new_manager = (Ok 0, st1) ∧
    deregister calm 7 0 st1 = (Ok tt, st2) ∧
    registry st2 = registry new_manager ∧
    detached (since new_manager st2) = [listener_A] ∧
    ∃ es, since new_manager st2 = AddEventListener listener_A OptUndefined :: es.
Proof.
  apply (register_deregister_untracked calm new_manager 7 "a" 1 OptUndefined); reflexivity.
Defined.

Lemma replicate_snoc {A} (n : nat) (x : A) : replicate n x ++ [x] = replicate (S n) x.
Proof. induction n as [|n IH]; [done|]. simpl. by rewrite IH. Qed.

Lemma register_then_deregister_tracked W st t e c o rs m :
  accepting W →
  handles_issued st →
  ledger st t = Some (DisposableStack.mk false rs, m) →
  m ≠ ∅ →
  let st' := register_then_deregister W t e c o st in
  ledger st' t = Some (DisposableStack.mk false (rs ++ [DeferDispose (mkBinding t e c)]), m) ∧
  handles_issued st'.
Proof.
  intros Hacc Hissued Hl Hne. cbv zeta.
  assert (Hfresh : m !! symbols st = None).
  { destruct (m !! symbols st) as [f|] eqn:Hf; [|done].
    assert (Hlt : symbols st < symbols st); [|lia].
    apply (Hissued t). unfold handles. rewrite Hl. by eexists. }
  assert (Hstep : register_then_deregister W t e c o st =
                  step W (OpDeregister t (symbols st)) (step W (OpRegister t e c o) st)).
  { unfold register_then_deregister. simpl.
    rewrite (register_tracked W t e c o st _ m Hl) by done. cbv zeta. by rewrite Hacc. }
  split; [|rewrite Hstep; by do 2 apply handles_issued_step].
  unfold register_then_deregister.
  rewrite (register_tracked W t e c o st _ m Hl) by done. cbv zeta. rewrite Hacc.
  set (b := mkBinding t e c). cbn [DisposableStack.ds_resources].
  assert (Hl1 : ledger (registered st b o rs m) t =
                Some (DisposableStack.mk false (rs ++ [DeferDispose b]),
                      <[symbols st := EarlyDispose b (symbols st)]> m)).
  { unfold ledger, registered. simpl. apply get_set_eq. }
  rewrite (deregister_call_early W _ t (symbols st) _
             (EarlyDispose b (symbols st)) Hl1) by apply lookup_insert_eq.
  rewrite call_early_run. cbv zeta.
  change (bd_target b) with t. rewrite Hl1. cbn [DisposableStack.ds_disposed].
  rewrite delete_insert_eq, (delete_id m _ Hfresh).
  rewrite decide_False by (by rewrite map_size_empty_iff).
  unfold ledger. cbn [snd events with_events]. apply get_set_eq.
Qed.

(** X5. The release sequence of a target only grows while the target
    stays tracked: on a target that keeps another handle, each round of
    registering a listener and releasing it with the returned symbol
    leaves the handle map as it was and the release sequence one
    release action longer, so that bulk disposal will call
    [removeEventListener] once more per round. *)
Theorem register_then_deregister_grows (W : Targets) (st : State)
    (target : nat) (eventName : EventName) (callback : nat) (options : Options)
    (rs : list DeferCallback) (m : gmap nat EarlyEventDispose) (n : nat) :
  accepting W →
  handles_issued st →
  ledger st target = Some (DisposableStack.mk false rs, m) →
  m ≠ ∅ →
  ledger (Nat.iter n (register_then_deregister W target eventName callback options) st)
    target =
  Some (DisposableStack.mk false
          (rs ++ replicate n (DeferDispose (mkBinding target eventName callback))), m).
Proof.
  intros Hacc Hissued Hl Hne.
  cut (ledger (Nat.iter n (register_then_deregister W target eventName callback options) st)
         target =
       Some (DisposableStack.mk false
               (rs ++ replicate n (DeferDispose (mkBinding target eventName callback))), m) ∧
       handles_issued
         (Nat.iter n (register_then_deregister W target eventName callback options) st)).
  { by intros [? _]. }
  induction n as [|n [IHl IHi]].
  - simpl. by rewrite app_nil_r.
  - rewrite Nat.iter_succ.
    destruct (register_then_deregister_tracked W _ target eventName callback options
                _ m Hacc IHi IHl Hne) as [Hl' Hi'].
    split; [|done]. rewrite Hl'. by rewrite <- app_assoc, replicate_snoc.
Qed.

Lemma register_then_deregister_grows_witness :
  ledger (Nat.iter 2 (register_then_deregister calm 7 "b" 2 OptUndefined)
            (run calm [OpRegister 7 "a" 1 OptUndefined] new_manager)) 7 =
  Some (DisposableStack.mk false
          [DeferDispose listener_A; DeferDispose listener_B; DeferDispose listener_B],
        <[0 := EarlyDispose listener_A 0]> ∅).
Proof.
  apply (register_then_deregister_grows calm
           (run calm [OpRegister 7 "a" 1 OptUndefined] new_manager)
           7 "b" 2 OptUndefined [DeferDispose listener_A]
           (<[0 := EarlyDispose listener_A 0]> ∅) 2).
  - by intros tr b o.
  - apply (handles_issued_run calm [OpRegister 7 "a" 1 OptUndefined]).
  - reflexivity.
  - apply insert_non_empty.
Defined.

(** X6. All that [register] does to the outside world is one
    [addEventListener] call: it prints nothing and never calls
    [removeEventListener].  When the stack stored for the target was
    moved out, it throws before it calls the target. *)
Theorem register_calls_target_once (W : Targets) (st : State)
    (target : nat) (eventName : EventName) (callback : nat) (options : Options) :
  since st (register W target eventName callback options st).2 =
  match ledger st target with
  | Some entry =>
      if DisposableStack.ds_disposed entry.1 then []
      else [AddEventListener (mkBinding target eventName callback) options]
  | None => [AddEventListener (mkBinding target eventName callback) options]
  end.
Proof.
  destruct (ledger st target) as [[stk m]|] eqn:Hl.
  - destruct (DisposableStack.ds_disposed stk) eqn:Hd; simpl; rewrite Hd.
    + rewrite (register_spent W target eventName callback options st stk m) by done.
      unfold since. simpl. by rewrite drop_all.
    + rewrite (register_tracked W target eventName callback options st stk m) by done.
      simpl. destruct (add_outcome W (trace st) _ options);
        unfold since; simpl; by rewrite drop_app_length.
  - rewrite register_untracked by done. simpl.
    destruct (add_outcome W (trace st) _ options);
      unfold since; simpl; by rewrite drop_app_length.
Qed.

Lemma live_bindings_detached_witness :
  ∃ b, EarlyDispose listener_B 1 = EarlyDispose b 1 ∧ bd_target b = 7 ∧
       b ∈ detached
             (since (run calm [OpRegister 7 "a" 1 OptUndefined;
                               OpRegister 7 "b" 2 OptUndefined;
                               OpDeregister 7 0] new_manager)
                (dispose calm
                   (run calm [OpRegister 7 "a" 1 OptUndefined;
                              OpRegister 7 "b" 2 OptUndefined;
                              OpDeregister 7 0] new_manager)).2).
Proof.
  apply (live_bindings_detached calm
           [OpRegister 7 "a" 1 OptUndefined; OpRegister 7 "b" 2 OptUndefined;
            OpDeregister 7 0] 7 1 (EarlyDispose listener_B 1)).
  - by intros tr b o.
  - reflexivity.
  - reflexivity.
Defined.

Lemma deregister_released_again_witness :
  ∃ st1 msg,
    deregister calm 7 0 two_listeners = (Ok tt, st1) ∧
    deregister calm 7 0 st1 = (Ok tt, emit (ConsoleWarn msg) st1).
Proof.
  apply (deregister_released_again calm two_listeners 7 0 listener_A
           (DisposableStack.mk false [DeferDispose listener_A; DeferDispose listener_B])
           (handles two_listeners 7)); reflexivity.
Defined.

Lemma deregister_returns_witness :
  (deregister stubborn 7 0
     (run stubborn [OpRegister 7 "a" 1 OptUndefined; OpDispose;
                    OpRegister 7 "b" 2 OptUndefined] new_manager)).1 = Ok tt.
Proof.
  apply (deregister_returns stubborn
           [OpRegister 7 "a" 1 OptUndefined; OpDispose; OpRegister 7 "b" 2 OptUndefined] 7 0).
  by intros tr b o.
Defined.

(** ** The order of bulk disposal across targets *)

Lemma first_seen_elem ts t : t ∈ first_seen ts ↔ t ∈ ts.
Proof.
  induction ts as [|x ts IH]; simpl; [done|].
  rewrite !elem_of_cons, list_elem_of_filter, IH.
  destruct (decide (t = x)); tauto.
Qed.

Lemma first_seen_NoDup ts : NoDup (first_seen ts).
Proof.
  induction ts as [|x ts IH]; simpl; [apply NoDup_nil_2|].
  apply NoDup_cons_2; [|by apply NoDup_filter].
  rewrite list_elem_of_filter. by intros [Hne _].
Qed.

Lemma first_seen_snoc ts t :
  first_seen (ts ++ [t]) =
  if decide (t ∈ ts) then first_seen ts else first_seen ts ++ [t].
Proof.
  induction ts as [|x ts IH]; simpl.
  - done.
  - rewrite IH. destruct (decide (t ∈ ts)) as [Hin|Hout].
    + rewrite decide_True; [done|]. by apply list_elem_of_further.
    + rewrite filter_app. destruct (decide (t = x)) as [->|Hne].
      * rewrite decide_True by apply list_elem_of_here.
        rewrite filter_cons_False by (intros ?; done). by rewrite app_nil_r.
      * rewrite decide_False by (rewrite elem_of_cons; tauto).
        by rewrite filter_cons_True by done.
Qed.

Lemma get_fmap_keys {V} (g : nat → V) (L : list nat) t :
  JsMap.get t ((λ t', (t', g t')) <$> L) = if decide (t ∈ L) then Some (g t) else None.
Proof.
  induction L as [|x L IH]; [done|].
  rewrite fmap_cons. cbn [JsMap.get].
  - destruct (decide (x = t)) as [->|Hne].
    + rewrite decide_True; [done|]. apply list_elem_of_here.
    + rewrite IH. destruct (decide (t ∈ L)) as [Hin|Hout].
      * rewrite decide_True; [done|]. by apply list_elem_of_further.
      * rewrite decide_False; [done|]. rewrite elem_of_cons.
        intros [Heq|Hin]; [by apply Hne|by apply Hout].
Qed.

Lemma set_fmap_keys {V} (g g' : nat → V) (L : list nat) t :
  NoDup L → t ∈ L →
  (∀ t', t' ≠ t → g' t' = g t') →
  JsMap.set t (g' t) ((λ t', (t', g t')) <$> L) = (λ t', (t', g' t')) <$> L.
Proof.
  intros Hnd Hin Hsame. induction L as [|x L IH]; [by apply not_elem_of_nil in Hin|].
  apply NoDup_cons in Hnd as [Hx Hnd]. rewrite !fmap_cons. cbn [JsMap.set].
  destruct (decide (x = t)) as [->|Hne].
  - f_equal. apply list_fmap_ext. intros i t' Ht'. f_equal. symmetry. apply Hsame.
    intros ->. apply Hx. by eapply list_elem_of_lookup_2.
  - rewrite (Hsame x) by done. f_equal. apply IH; [done|].
    apply elem_of_cons in Hin as [->|Hin]; done.
Qed.

Lemma on_target_snoc target bs b :
  on_target target (bs ++ [b]) =
  on_target target bs ++ (if decide (bd_target b = target) then [b] else []).
Proof.
  unfold on_target. rewrite filter_app. by f_equal.
Qed.

Lemma on_target_none target bs :
  target ∉ bd_target <$> bs → on_target target bs = [].
Proof.
  intros Hout. unfold on_target. induction bs as [|b bs IH]; [done|].
  simpl in Hout. apply not_elem_of_cons in Hout as [Hne Hout].
  rewrite filter_cons_False by (intros ?; done). by apply IH.
Qed.

(** Registering one binding after the other builds, per target in the
    order of first registration, the list of its bindings. *)
Lemma stack_add_all bs :
  foldl (λ A b, stack_add b A) [] bs =
  (λ target, (target, on_target target bs)) <$> first_seen (bd_target <$> bs).
Proof.
  induction bs as [|b bs IH] using rev_ind; [done|].
  rewrite foldl_app. cbn [foldl]. rewrite IH. unfold stack_add.
  rewrite fmap_app. cbn [fmap list_fmap]. rewrite first_seen_snoc.
  rewrite get_fmap_keys.
  destruct (decide (bd_target b ∈ bd_target <$> bs)) as [Hin|Hout].
  - rewrite decide_True by (by apply first_seen_elem).
    change (default [] (Some (on_target (bd_target b) bs)))
      with (on_target (bd_target b) bs).
    replace (on_target (bd_target b) bs ++ [b])
      with (on_target (bd_target b) (bs ++ [b]))
      by (by rewrite on_target_snoc, decide_True).
    apply (set_fmap_keys (λ target, on_target target bs)
             (λ target, on_target target (bs ++ [b]))
             (first_seen (bd_target <$> bs)) (bd_target b)).
    + apply first_seen_NoDup.
    + by apply first_seen_elem.
    + intros t' Hne. rewrite on_target_snoc, decide_False by done. by rewrite app_nil_r.
  - rewrite decide_False by (by rewrite first_seen_elem).
    change (default [] None) with (@nil Binding).
    rewrite set_untracked.
    2:{ rewrite get_fmap_keys. by rewrite decide_False by (by rewrite first_seen_elem). }
    rewrite fmap_app. cbn [fmap list_fmap]. f_equal.
    + apply list_fmap_ext. intros i t' Ht'. f_equal.
      rewrite on_target_snoc, decide_False; [by rewrite app_nil_r|].
      intros Heq. apply Hout. rewrite Heq. apply first_seen_elem.
      by eapply list_elem_of_lookup_2.
    + by rewrite on_target_snoc, decide_True, on_target_none.
Qed.

Lemma stacks_of_get ev t :
  JsMap.get t (stacks_of ev) =
  (λ entry : Entry, deferred_binding <$> DisposableStack.ds_resources entry.1)
    <$> JsMap.get t ev.
Proof.
  induction ev as [|[k entry] ev IH]; [done|]. simpl.
  destruct (decide (k = t)); [done|]. exact IH.
Qed.

Lemma stacks_of_set ev t entry :
  stacks_of (JsMap.set t entry ev) =
  JsMap.set t (deferred_binding <$> DisposableStack.ds_resources entry.1) (stacks_of ev).
Proof.
  induction ev as [|[k entry'] ev IH]; [done|]. simpl.
  destruct (decide (k = t)); [done|]. simpl. by rewrite IH.
Qed.

Lemma all_live_set ev t entry :
  DisposableStack.ds_disposed entry.1 = false →
  all_live ev → all_live (JsMap.set t entry ev).
Proof.
  intros Hentry Hlive. induction ev as [|[k entry'] ev IH]; simpl.
  - by apply Forall_singleton.
  - apply Forall_cons in Hlive as [Hk Hlive].
    destruct (decide (k = t)); apply Forall_cons; split; auto. by apply IH.
Qed.

Lemma all_live_get ev t entry :
  all_live ev → JsMap.get t ev = Some entry →
  DisposableStack.ds_disposed entry.1 = false.
Proof.
  intros Hlive. induction ev as [|[k entry'] ev IH]; [done|]. simpl.
  apply Forall_cons in Hlive as [Hk Hlive].
  destruct (decide (k = t)); [by intros [= <-]|by apply IH].
Qed.

Lemma scheduled_stacks_of ev :
  all_live ev → scheduled ev = mjoin ((λ kv, rev kv.2) <$> stacks_of ev).
Proof.
  intros Hlive. induction ev as [|[k [stk m]] ev IH]; [done|].
  apply Forall_cons in Hlive as [Hk Hlive]. simpl in *. rewrite Hk, IH by done.
  f_equal. clear. induction (DisposableStack.ds_resources stk) as [|f rs IHrs]; [done|].
  simpl. by rewrite fmap_app, IHrs.
Qed.

Lemma register_each_stacks W regs : ∀ st hs st',
  all_live (events st) →
  register_each W regs st = (Ok hs, st') →
  all_live (events st') ∧
  disposed st' = disposed st ∧
  stacks_of (events st') = foldl (λ A b, stack_add b A) (stacks_of (events st)) regs.*1.
Proof.
  induction regs as [|[b o] regs IH]; intros st hs st' Hlive.
  - simpl. by intros [= <- <-].
  - cbn [register_each]. unfold bind at 1.
    destruct (register W (bd_target b) (bd_eventName b) (bd_callback b) o st)
      as [[h|x] st1] eqn:Hreg; [|done].
    unfold bind at 1.
    destruct (register_each W regs st1) as [[hs'|x] st2] eqn:Hrest; [|done].
    intros [= <- <-].
    assert (Hst1 : all_live (events st1) ∧ disposed st1 = disposed st ∧
                   stacks_of (events st1) = stack_add b (stacks_of (events st))).
    { revert Hreg. destruct b as [t e c]. cbn [bd_target bd_eventName bd_callback].
      unfold stack_add. cbn [bd_target]. rewrite stacks_of_get.
      destruct (ledger st t) as [[stk m]|] eqn:Hl.
      - pose proof (all_live_get _ _ _ Hlive Hl) as Hstk. simpl in Hstk.
        rewrite (register_tracked W t e c o st stk m) by done. simpl.
        destruct (add_outcome W (trace st) _ o); [done|]. intros [= <- <-].
        unfold registered. simpl. split; [by apply all_live_set|]. split; [done|].
        unfold ledger in Hl. rewrite stacks_of_set, Hl. simpl.
        by rewrite fmap_app.
      - rewrite register_untracked by done. simpl.
        destruct (add_outcome W (trace st) _ o); [done|]. intros [= <- <-].
        unfold registered. simpl. split; [by apply all_live_set|]. split; [done|].
        unfold ledger in Hl. by rewrite stacks_of_set, Hl. }
    destruct Hst1 as (Hlive1 & Hd1 & Hstacks1).
    destruct (IH st1 hs' st2 Hlive1 Hrest) as (Hlive2 & Hd2 & Hstacks2).
    split; [done|]. split; [congruence|]. simpl. by rewrite Hstacks2, Hstacks1.
Qed.

Lemma register_each_keys_unique W regs : ∀ st hs st',
  keys_unique st → register_each W regs st = (Ok hs, st') → keys_unique st'.
Proof.
  induction regs as [|[b o] regs IH]; intros st hs st' Hnd.
  - simpl. by intros [= <- <-].
  - cbn [register_each]. unfold bind at 1.
    destruct (register W (bd_target b) (bd_eventName b) (bd_callback b) o st)
      as [[h|x] st1] eqn:Hreg; [|done].
    unfold bind at 1.
    destruct (register_each W regs st1) as [[hs'|x] st2] eqn:Hrest; [|done].
    intros [= <- <-]. apply (IH st1 hs'); [|done].
    destruct (step_change W (OpRegister (bd_target b) (bd_eventName b) (bd_callback b) o) st)
      as [Hchange _].
    simpl in Hchange. rewrite Hreg in Hchange. by eapply keys_unique_change.
Qed.

(** X18. Bulk disposal is last-in-first-out per target, not overall.
    When listeners are registered on any targets of a manager without
    ledgers, every call returning normally, and the manager, not yet
    disposed, is disposed, the [removeEventListener] calls go target by
    target in the order in which the targets were first registered, and
    for each target through its listeners from the last registered to
    the first. *)
Theorem dispose_order_by_target (W : Targets) (st0 st : State)
    (regs : list (Binding * Options)) (hs : list nat) :
  events st0 = [] →
  disposed st0 = false →
  register_each W regs st0 = (Ok hs, st) →
  detached (since st (dispose W st).2) = disposal_order regs.*1.
Proof.
  intros Hev Hd Hregs.
  destruct (register_each_stacks W regs st0 hs st) as (Hlive & Hd' & Hstacks); [|done|].
  { rewrite Hev. apply Forall_nil_2. }
  rewrite dispose_detaches.
  - rewrite scheduled_stacks_of, Hstacks, Hev by done. simpl.
    rewrite stack_add_all. unfold disposal_order.
    by rewrite <- list_fmap_compose.
  - apply (register_each_keys_unique W regs st0 hs); [|done].
    unfold keys_unique. rewrite Hev. apply NoDup_nil_2.
  - congruence.
Qed.

Lemma dispose_order_by_target_witness :
  let st := run calm [OpRegister 7 "a" 1 OptUndefined; OpRegister 8 "x" 9 OptUndefined;
                      OpRegister 7 "c" 3 OptUndefined] new_manager in
  detached (since st (dispose calm st).2) =
  [listener_C; listener_A; mkBinding 8 "x" 9].
Proof.
  apply (dispose_order_by_target calm new_manager _
           [(listener_A, OptUndefined); (mkBinding 8 "x" 9, OptUndefined);
            (listener_C, OptUndefined)] [0; 1; 2]); reflexivity.
Defined.

(** ** Ledgers and live bindings *)

Lemma register_ok_handles W t e c o st h st1 :
  register W t e c o st = (Ok h, st1) →
  disposed st1 = disposed st ∧
  ∀ target,
    handles st1 target =
    if decide (t = target)
    then <[h := EarlyDispose (mkBinding t e c) h]> (handles st t)
    else handles st target.
Proof.
  destruct (ledger st t) as [[stk m]|] eqn:Hl.
  - destruct (DisposableStack.ds_disposed stk) eqn:Hd.
    + by rewrite (register_spent W t e c o st stk m).
    + rewrite (register_tracked W t e c o st stk m) by done. simpl.
      destruct (add_outcome W (trace st) _ o); [done|]. intros [= <- <-].
      split; [done|]. intros target.
      rewrite (handles_set st (registered st (mkBinding t e c) o
                                 (DisposableStack.ds_resources stk) m) t _ target eq_refl).
      unfold handles. by rewrite Hl.
  - rewrite register_untracked by done. simpl.
    destruct (add_outcome W (trace st) _ o); [done|]. intros [= <- <-].
    split; [done|]. intros target.
    rewrite (handles_set st (registered st (mkBinding t e c) o [] ∅) t _ target eq_refl).
    unfold handles. by rewrite Hl.
Qed.

Lemma register_throw_handles W t e c o st x st1 :
  register W t e c o st = (Throw x, st1) →
  disposed st1 = disposed st ∧ ∀ target, handles st1 target = handles st target.
Proof.
  destruct (ledger st t) as [[stk m]|] eqn:Hl.
  - destruct (DisposableStack.ds_disposed stk) eqn:Hd.
    + rewrite (register_spent W t e c o st stk m) by done. by intros [= <- <-].
    + rewrite (register_tracked W t e c o st stk m) by done. simpl.
      destruct (add_outcome W (trace st) _ o); [|done]. intros [= <- <-].
      split; [done|]. intros target.
      rewrite (handles_set st
                 (emit (AddEventListener (mkBinding t e c) o)
                    (with_events (JsMap.set t (DisposableStack.spent, m) (events st)) st))
                 t (DisposableStack.spent, m) target eq_refl).
      case_decide as Ht; [|done]. subst target. unfold handles. by rewrite Hl.
  - rewrite register_untracked by done. simpl.
    destruct (add_outcome W (trace st) _ o); [|done]. by intros [= <- <-].
Qed.

Lemma deregister_ok_handles W t s st st1 :
  closures_own st →
  deregister W t s st = (Ok tt, st1) →
  disposed st1 = disposed st ∧
  ∀ target,
    handles st1 target =
    if decide (t = target) then delete s (handles st t) else handles st target.
Proof.
  intros Hown.
  destruct (ledger st t) as [[stk m]|] eqn:Hl.
  - assert (Hm : handles st t = m) by (unfold handles; by rewrite Hl).
    destruct (m !! s) as [[b s']|] eqn:Hs.
    + destruct (Hown t s b s') as [Hb ->]; [by rewrite Hm|].
      rewrite (deregister_call_early W st t s (stk, m) (EarlyDispose b s)) by done.
      rewrite call_early_run. cbv zeta. rewrite Hb, Hl.
      destruct (DisposableStack.ds_disposed stk); [done|].
      destruct (decide (size (delete s m) = 0)) as [Hsz|Hsz]; intros [= <-].
      * split; [done|]. intros target.
        rewrite (handles_delete st _ t target) by reflexivity. case_decide; [|done].
        rewrite Hm. symmetry. by apply map_size_empty_iff.
      * split; [done|]. intros target.
        erewrite (handles_set st _ t _ target) by reflexivity. case_decide; [|done].
        by rewrite Hm.
    + rewrite (deregister_unknown_symbol W st t s (stk, m)) by done. intros [= <-].
      split; [done|]. intros target. rewrite (handles_same st _) by done.
      case_decide as Ht; [|done]. subst target. rewrite Hm. symmetry. by apply delete_id.
  - rewrite deregister_untracked by done. intros [= <-].
    split; [done|]. intros target. rewrite (handles_same st _) by done.
    case_decide as Ht; [|done]. subst target.
    unfold handles. rewrite Hl. symmetry. apply delete_empty.
Qed.

Lemma deregister_throw_handles W t s st x st1 :
  deregister W t s st = (Throw x, st1) →
  disposed st1 = disposed st ∧ ∀ target, handles st1 target = handles st target.
Proof.
  destruct (ledger st t) as [entry|] eqn:Hl.
  - destruct (entry.2 !! s) as [[b s']|] eqn:Hs.
    + rewrite (deregister_call_early W st t s entry (EarlyDispose b s')) by done.
      rewrite call_early_run. cbv zeta.
      destruct (ledger st (bd_target b)) as [[stk m]|]; [|done].
      destruct (DisposableStack.ds_disposed stk).
      * by intros [= <- <-].
      * by destruct (decide (size (delete s' m) = 0)).
    + by rewrite (deregister_unknown_symbol W st t s entry).
  - by rewrite deregister_untracked.
Qed.

Lemma tracks_new : tracks new_manager no_calls.
Proof.
  split; [done|]. split; [|split].
  - intros target h b s. by rewrite handles_no_ledgers.
  - apply ledger_iff_live_alt. intros target entry. by unfold ledger.
  - intros target symbol. rewrite handles_no_ledgers by done. rewrite lookup_empty.
    split; [intros Hin; by apply not_elem_of_empty in Hin|by intros [? ?]].
Qed.

Lemma tracks_step W op st lc :
  tracks st lc → tracks (step W op st) (lifecycle_step W op st lc).
Proof.
  intros (Hflag & Hown & Hlil & Hlive).
  assert (Hown' : closures_own (step W op st)) by (by apply closures_own_step).
  assert (Hlil' : ledger_iff_live (step W op st)).
  { apply ledger_iff_live_change with op st; [apply step_change|done]. }
  split; [|split; [done|split; [done|]]].
  - destruct op as [t e c o|t s|]; simpl.
    + destruct (register W t e c o st) as [[h|x] st1] eqn:Hreg; simpl.
      * apply register_ok_handles in Hreg as [-> _]. done.
      * apply register_throw_handles in Hreg as [-> _]. done.
    + destruct (deregister W t s st) as [[[]|x] st1] eqn:Hdereg; simpl.
      * apply deregister_ok_handles in Hdereg as [-> _]; done.
      * apply deregister_throw_handles in Hdereg as [-> _]. done.
    + rewrite dispose_sets_flag. by destruct (lc_disposed lc) eqn:Hlc.
  - intros target symbol. destruct op as [t e c o|t s|]; simpl.
    + destruct (register W t e c o st) as [[h|x] st1] eqn:Hreg; simpl.
      * apply register_ok_handles in Hreg as [_ ->].
        rewrite elem_of_union, elem_of_singleton, Hlive.
        case_decide as Ht.
        -- subst target. rewrite lookup_insert. case_decide as Hh.
           ++ subst symbol. split; [by eexists|by left].
           ++ split; [intros [[= ?]|?]; done|by right].
        -- split; [intros [[= ? ?]|?]; done|by right].
      * apply register_throw_handles in Hreg as [_ ->]. apply Hlive.
    + destruct (deregister W t s st) as [[[]|x] st1] eqn:Hdereg; simpl.
      * apply deregister_ok_handles in Hdereg as [_ ->]; [|done].
        rewrite elem_of_difference, elem_of_singleton, Hlive.
        case_decide as Ht.
        -- subst target. rewrite lookup_delete. case_decide as Hs.
           ++ subst symbol. split; [by intros [_ ?]|by intros [? ?]].
           ++ split; [by intros [? _]|]. intros Hsome. split; [done|]. by intros [= ?].
        -- split; [by intros [? _]|]. intros Hsome. split; [done|]. by intros [= ? ?].
      * apply deregister_throw_handles in Hdereg as [_ ->]. apply Hlive.
    + rewrite Hflag. destruct (disposed st) eqn:Hd.
      * rewrite dispose_again by done. apply Hlive.
      * destruct (dispose_total W st Hd) as (es & ->). simpl.
        rewrite handles_no_ledgers by done. rewrite lookup_empty.
        split; [intros Hin; by apply not_elem_of_empty in Hin|by intros [? ?]].
Qed.

Lemma run_lifecycle_snoc W ops op st lc :
  run_lifecycle W (ops ++ [op]) st lc =
  (step W op (run_lifecycle W ops st lc).1,
   lifecycle_step W op (run_lifecycle W ops st lc).1 (run_lifecycle W ops st lc).2).
Proof. unfold run_lifecycle. by rewrite foldl_app. Qed.

Lemma run_lifecycle_state W ops st lc : (run_lifecycle W ops st lc).1 = run W ops st.
Proof.
  induction ops as [|op ops IH] using rev_ind; [done|].
  rewrite run_lifecycle_snoc, run_snoc. simpl. by rewrite IH.
Qed.

Lemma tracks_run W ops :
  tracks (run_lifecycle W ops new_manager no_calls).1
         (run_lifecycle W ops new_manager no_calls).2.
Proof.
  induction ops as [|op ops IH] using rev_ind; [apply tracks_new|].
  rewrite run_lifecycle_snoc. simpl. by apply tracks_step.
Qed.

Lemma tracks_ledger_iff_binding st lc : tracks st lc → ledger_iff_binding st lc.
Proof.
  intros (_ & _ & Hlil & Hlive) target. rewrite (Hlil target). split.
  - intros Hne. apply map_choose in Hne as (h & f & Hf).
    exists h. apply Hlive. by eexists.
  - intros (h & Hin) Hempty. apply Hlive in Hin as [f Hf].
    by rewrite Hempty, lookup_empty in Hf.
Qed.

(** C7. A ledger is stored for a target if and only if one of the
    target's bindings is live, where a binding is live from the
    [register] call that returned its symbol until a [deregister] call
    for its target and symbol returns or the manager is disposed of
    by its first [dispose] call (a later [dispose] call does nothing,
    so a binding registered after the first one stays live).
    This holds after any sequence of calls on a new manager, whatever
    the targets do, and is preserved, together with the agreement
    between ledgers and live bindings that it rests on, by every
    [register], [deregister] and [dispose] call, whether it returns or
    throws.  [register] on an untracked target creates its ledger, and
    the [deregister] call that releases the last live binding of a
    target leaves the target without a ledger.  A [deregister] call
    that throws has left its binding in the handle map of the ledger
    and counts as no release; it can only throw once a [register] call
    has thrown and spent the stack of the ledger: while the stacks are
    live, [deregister] ends the life of the binding it is given. *)
Theorem ledger_tracks_live_bindings (W : Targets) :
  (∀ ops,
     ledger_iff_binding (run W ops new_manager)
       (run_lifecycle W ops new_manager no_calls).2) ∧
  (∀ op st lc,
     tracks st lc →
     tracks (step W op st) (lifecycle_step W op st lc) ∧
     ledger_iff_binding (step W op st) (lifecycle_step W op st lc)) ∧
  (∀ st t e c o h st',
     ledger st t = None →
     register W t e c o st = (Ok h, st') →
     ledger st' t =
       Some (DisposableStack.mk false [DeferDispose (mkBinding t e c)],
             <[h := EarlyDispose (mkBinding t e c) h]> ∅)) ∧
  (∀ st lc t h st',
     tracks st lc →
     (t, h) ∈ lc_live lc →
     (∀ h', (t, h') ∈ lc_live lc → h' = h) →
     deregister W t h st = (Ok tt, st') →
     ledger st' t = None) ∧
  (∀ st lc t h,
     tracks st lc →
     stacks_live st →
     (t, h) ∉ lc_live (lifecycle_step W (OpDeregister t h) st lc)).
Proof.
  split; [|split; [|split; [|split]]].
  - intros ops. rewrite <- (run_lifecycle_state W ops new_manager no_calls).
    apply tracks_ledger_iff_binding, tracks_run.
  - intros op st lc Htracks.
    pose proof (tracks_step W op st lc Htracks) as Hnext.
    split; [done|]. by apply tracks_ledger_iff_binding.
  - apply (ledger_iff_live_invariant W).
  - intros st lc t h st' Htracks Hin Hlast Hdereg.
    pose proof (tracks_ledger_iff_binding _ _
                  (tracks_step W (OpDeregister t h) st lc Htracks) t) as Hiff.
    simpl in Hiff. rewrite Hdereg in Hiff. simpl in Hiff.
    destruct (ledger st' t) as [entry|] eqn:Hl; [|done].
    destruct (proj1 Hiff (mk_is_Some _ _ eq_refl)) as (h' & Hh').
    apply elem_of_difference in Hh' as [Hlive Hne].
    rewrite (Hlast h' Hlive) in Hne. exfalso. apply Hne. by apply elem_of_singleton.
  - intros st lc t h _ Hstacks. simpl.
    rewrite (deregister_returns_live W st t h Hstacks).
    intros Hin. apply elem_of_difference in Hin as [_ Hne].
    apply Hne. by apply elem_of_singleton.
Qed.

Lemma ledger_tracks_live_bindings_witness :
  ledger_iff_binding
    (run calm [OpRegister 7 "a" 1 OptUndefined; OpRegister 7 "b" 2 OptUndefined;
               OpDeregister 7 0] new_manager)
    (run_lifecycle calm
       [OpRegister 7 "a" 1 OptUndefined; OpRegister 7 "b" 2 OptUndefined;
        OpDeregister 7 0] new_manager no_calls).2 ∧
  is_Some
    (ledger
       (run calm [OpRegister 7 "a" 1 OptUndefined; OpRegister 7 "b" 2 OptUndefined;
                  OpDeregister 7 0] new_manager) 7) ∧
  tracks new_manager no_calls ∧
  tracks (step calm (OpRegister 7 "a" 1 OptUndefined) new_manager)
         (lifecycle_step calm (OpRegister 7 "a" 1 OptUndefined) new_manager no_calls) ∧
  ledger (registered new_manager (mkBinding 7 "a" 1) OptUndefined [] ∅) 7 =
    Some (DisposableStack.mk false [DeferDispose (mkBinding 7 "a" 1)],
          <[0 := EarlyDispose (mkBinding 7 "a" 1) 0]> ∅) ∧
  (7, 0) ∈ lc_live
             (lifecycle_step calm (OpRegister 7 "a" 1 OptUndefined) new_manager no_calls) ∧
  ledger (deregister calm 7 0
            (step calm (OpRegister 7 "a" 1 OptUndefined) new_manager)).2 7 = None ∧
  (7, 0) ∉ lc_live
             (lifecycle_step calm (OpDeregister 7 0)
                (step calm (OpRegister 7 "a" 1 OptUndefined) new_manager)
                (lifecycle_step calm (OpRegister 7 "a" 1 OptUndefined)
                   new_manager no_calls)).
Proof.
  destruct (ledger_tracks_live_bindings calm) as (Hrun & Hstep & Hreg & Hdereg & Hends).
  assert (Hin : (7, 0) ∈ lc_live
                  (lifecycle_step calm (OpRegister 7 "a" 1 OptUndefined)
                     new_manager no_calls)).
  { apply elem_of_union_l, elem_of_singleton. reflexivity. }
  split; [apply Hrun|]. split.
  { apply Hrun. exists 1. apply elem_of_difference. split.
    - apply elem_of_union_l, elem_of_singleton. reflexivity.
    - intros Heq. apply elem_of_singleton in Heq. discriminate Heq. }
  split; [apply tracks_new|].
  split; [apply Hstep, tracks_new|]. split; [|split; [exact Hin|split]].
  - apply (Hreg new_manager 7 "a" 1 OptUndefined 0); reflexivity.
  - apply (Hdereg (step calm (OpRegister 7 "a" 1 OptUndefined) new_manager)
             (lifecycle_step calm (OpRegister 7 "a" 1 OptUndefined) new_manager no_calls)
             7 0).
    + apply Hstep, tracks_new.
    + exact Hin.
    + intros h' Hh'. apply elem_of_union in Hh' as [Hh'|Hh'].
      * apply elem_of_singleton in Hh'. by injection Hh'.
      * by apply not_elem_of_empty in Hh'.
    + reflexivity.
  - apply Hends.
    + apply Hstep, tracks_new.
    + apply stacks_live_step; [by intros tr b o|by intros target entry].
Defined.
